(** * ftp_sync: one-way synchronisation of a local tree to an FTP server

    A shallow embedding of [ftp_sync.py].  The script talks to two outside
    parties: the FTP server (through an [ftplib.FTP_TLS] client) and the
    terminal (through [print] and [tqdm.write]).  Both are modelled by an
    event log: every client call is recorded together with the exception
    it raised, if any, and every printed line is recorded as a message.
    Python exceptions are modelled by an error monad on top of the log. *)

From Stdlib Require Import ZArith Ascii String.
From stdpp Require Import gmap strings list.

Local Open Scope string_scope.
Local Open Scope list_scope.

(** ** Paths

    A [pathlib] path is the list of its parts: [Path('.')] is the empty
    list, [p / name] appends one part.  The names the program joins are
    directory entries (from [Path.walk] or from an MLSD listing), each a
    single part. *)

Abbreviation path := (list string).

Definition joinpath (p : path) (name : string) : path := p ++ [name].

#[global] Instance joinpath_inj root : Inj (=) (=) (joinpath root).
Proof. intros a b Heq. unfold joinpath in Heq. by simplify_list_eq. Qed.

(** [p.relative_to(base)]: the parts of [p] after [base], [None]
    ([ValueError]) when [base] is not a prefix of [p]. *)
Fixpoint relative_to (p base : path) {struct base} : option path :=
  match base with
  | [] => Some p
  | b :: base' =>
      match p with
      | [] => None
      | a :: p' => if decide (a = b) then relative_to p' base' else None
      end
  end.

(** ** Exceptions and outcomes *)

(** The subclasses of [Exception] the program can meet.  [error_perm] is
    [ftplib.error_perm]; [OtherError] stands for every other subclass
    (socket errors, [ftplib.error_temp], [OSError], ...).  What is not an
    [Exception] ([KeyboardInterrupt], [SystemExit]) is not modelled. *)
Inductive exn :=
  | KeyError (key : string)
  | ValueError
  | RecursionError
  | error_perm (resp : string)
  | OtherError (descr : string).

Inductive outcome (A : Type) :=
  | Ok (a : A)
  | Raise (e : exn).
Arguments Ok {A} a.
Arguments Raise {A} e.

Definition outcome_bind {A B} (f : A → outcome B) (o : outcome A) : outcome B :=
  match o with
  | Ok a => f a
  | Raise e => Raise e
  end.

#[global] Instance outcome_ret : MRet outcome := @Ok.
#[global] Instance outcome_mbind : MBind outcome := @outcome_bind.

Definition or_raise {A} (e : exn) (o : option A) : outcome A :=
  match o with
  | Some a => Ok a
  | None => Raise e
  end.

(** ** The outside world: FTP calls and printed lines *)

(** One entry of an MLSD listing, as [ftplib.FTP.mlsd] yields it: the
    name and the dictionary of facts. *)
Abbreviation entry := (string * gmap string string)%type.

(** The methods of the FTP client.  The program uses all of them except
    [Rmd] (remove directory), which is listed so that its absence from a
    log says something. *)
Inductive call :=
  | Connect (host : string) (port : Z)
  | Login (user passwd : string)
  | ProtP
  | Cwd (dir : string)
  | Mlsd (p : path) (facts : list string)
  | Mkd (p : path)
  | Stor (remote : path) (local_file : path)
  | Dele (p : path)
  | Rmd (p : path)
  | Quit.

(** The lines the program prints. *)
Inductive msg :=
  | MsgConnecting
  | MsgGettingRemote
  | MsgGettingLocal
  | MsgLooking
  | MsgForce
  | MsgMirroring
  | MsgUploading (file : path)
  | MsgChecking
  | MsgNothingToDelete
  | MsgDeleting (n : nat)
  | MsgDeleted (p : path)
  | MsgDeleteFailed (p : path) (e : exn)
  | MsgDeleteUnexpected (p : path) (e : exn)
  | MsgError (e : exn)
  | MsgFinished.

(** A call is logged with the exception it raised ([None]: it returned). *)
Inductive event :=
  | Called (c : call) (r : option exn)
  | Printed (m : msg).

#[global] Instance exn_eq_dec : EqDecision exn.
Proof. solve_decision. Defined.
#[global] Instance call_eq_dec : EqDecision call.
Proof. solve_decision. Defined.
#[global] Instance msg_eq_dec : EqDecision msg.
Proof. solve_decision. Defined.
#[global] Instance event_eq_dec : EqDecision event.
Proof. solve_decision. Defined.

(** ** The local file system

    [Path('output').walk()] is modelled on a tree of directory entries
    that does not change during the run.  A file carries the two facts
    the program reads from it ([os.path.getmtime], [os.path.getsize]);
    reading them does not fail. *)
#[warnings="-register-all"] Inductive node :=
  | file_node (name : string) (mtime : Z) (size : Z)
  | dir_node (name : string) (children : list node).

Definition node_name (n : node) : string :=
  match n with
  | file_node name _ _ => name
  | dir_node name _ => name
  end.

(** The value stored for a local file: [{'modify': ..., 'size': ...}]. *)
Record local_info := { info_modify : Z; info_size : Z }.

Definition dirnames (children : list node) : list string :=
  children ≫= λ n, match n with dir_node d _ => [d] | _ => [] end.

Definition filenames (children : list node) : list (string * local_info) :=
  children ≫= λ n, match n with
                   | file_node f t s => [(f, {| info_modify := t; info_size := s |})]
                   | _ => []
                   end.

(** Top-down walk: the directory itself, then each sub-directory in
    listing order.  Each item is [(root, dirs, files)]; a file name comes
    with its stat facts. *)
Fixpoint walk (root : path) (n : node)
  : list (path * list string * list (string * local_info)) :=
  match n with
  | file_node _ _ _ => []
  | dir_node _ children =>
      (root, dirnames children, filenames children) ::
      (children ≫= λ c, walk (joinpath root (node_name c)) c)
  end.

Definition node_children (n : node) : list node :=
  match n with
  | file_node _ _ _ => []
  | dir_node _ children => children
  end.

(** The paths of the directories and of the files a walk names. *)
Definition walk_dirs (root : path) (n : node) : list path :=
  walk root n ≫= λ '(r, dirs, _), joinpath r <$> dirs.

Definition walk_files (root : path) (n : node) : list (path * local_info) :=
  walk root n ≫= λ '(r, _, files), (λ '(file, info), (joinpath r file, info)) <$> files.

(** ** The world a run happens in *)

Record world := {
  (** [os.environ] after [load_dotenv()] *)
  environ : gmap string string;
  (** the entries of the local directory [output] *)
  local_site : list node;
  (** the server's answer to [MLSD] for the requested facts and path;
      the program lists before it sends any command that changes the
      server, and the tree is taken not to change while it is listed *)
  listing : list string → path → outcome (list entry);
  (** the exception, if any, raised by any other client call, given the
      events so far *)
  reply : list event → call → option exn;
  (** Python's [int(str)]; [None] is [ValueError] *)
  int : string → option Z;
  (** [Path(str)]: the parts of a path given as a string *)
  Path : string → path;
  (** how many nested calls of [recursive_get_dirs] fit on the stack *)
  recursion_limit : nat
}.

(** ** The effect monad: history in, outcome and new events out *)

Definition M (A : Type) : Type := list event → outcome A * list event.

Definition M_ret {A} (a : A) : M A := λ _, (Ok a, []).

Definition M_bind {A B} (f : A → M B) (m : M A) : M B :=
  λ h, match m h with
       | (Ok a, evs) =>
           let '(r, evs') := f a (h ++ evs) in (r, evs ++ evs')
       | (Raise e, evs) => (Raise e, evs)
       end.

#[global] Instance M_mret : MRet M := @M_ret.
#[global] Instance M_mbind : MBind M := @M_bind.

Definition lift {A} (o : outcome A) : M A := λ _, (o, []).

Definition raise {A} (e : exn) : M A := lift (Raise e).

Definition print (m : msg) : M unit := λ _, (Ok (), [Printed m]).

(** [try: body except Exception as e: handler e] *)
Definition try_except {A} (body : M A) (handler : exn → M A) : M A :=
  λ h, match body h with
       | (Ok a, evs) => (Ok a, evs)
       | (Raise e, evs) =>
           let '(r, evs') := handler e (h ++ evs) in (r, evs ++ evs')
       end.

(** [try: body finally: final] *)
Definition try_finally {A} (body : M A) (final : M unit) : M A :=
  λ h, let '(r, evs) := body h in
       match final (h ++ evs) with
       | (Ok _, evs') => (r, evs ++ evs')
       | (Raise e, evs') => (Raise e, evs ++ evs')
       end.

(** [for x in xs: body x] *)
Fixpoint for_each {A} (xs : list A) (body : A → M unit) : M unit :=
  match xs with
  | [] => mret ()
  | x :: xs' => body x ;; for_each xs' body
  end.

(** A loop that carries a value from one iteration to the next. *)
Fixpoint for_fold {A S} (xs : list A) (body : S → A → M S) (s : S) : M S :=
  match xs with
  | [] => mret s
  | x :: xs' => s' ← body s x; for_fold xs' body s'
  end.

(** ** The program *)

(** A remote file as [get_remote_files] returns it:
    [(path, modify, size)], the two facts as the server sent them. *)
Abbreviation remote_entry := (path * string * string)%type.

(** [local_files]: a Python dict, in insertion order. *)
Abbreviation local_dict := (list (path * local_info)).

(** [d[k] = v]: a key already present keeps its place. *)
Fixpoint dict_set (k : path) (v : local_info) (d : local_dict) : local_dict :=
  match d with
  | [] => [(k, v)]
  | (k', v') :: d' =>
      if decide (k = k') then (k', v) :: d' else (k', v') :: dict_set k v d'
  end.

Definition keys (d : local_dict) : list path := d.*1.

Definition local_site_path : path := ["output"].

(** [info[key]] on the facts of a listing entry. *)
Definition fact (info : entry) (key : string) : outcome string :=
  or_raise (KeyError key) (info.2 !! key).

(** The list comprehension of [get_remote_files]: the entries of one
    listing whose type is ['file']. *)
Fixpoint file_entries (dir : path) (remote_file_list : list entry)
  : outcome (list remote_entry) :=
  match remote_file_list with
  | [] => Ok []
  | f :: rest =>
      ty ← fact f "type";
      if decide (ty = "file") then
        m ← fact f "modify";
        s ← fact f "size";
        files ← file_entries dir rest;
        mret ((joinpath dir f.1, m, s) :: files)
      else file_entries dir rest
  end.

(** [next((file for file in remote_files
           if Path(file[0]).relative_to('.') == remote_file), None)] *)
Fixpoint next_match (remote_files : list remote_entry) (remote_file : path)
  : outcome (option remote_entry) :=
  match remote_files with
  | [] => Ok None
  | file :: rest =>
      rel ← or_raise ValueError (relative_to file.1.1 []);
      if decide (rel = remote_file) then Ok (Some file)
      else next_match rest remote_file
  end.

(** [{f(x) for x in xs}] where [f] may raise. *)
Fixpoint set_of {A} (f : A → outcome path) (xs : list A) : outcome (gset path) :=
  match xs with
  | [] => Ok ∅
  | x :: xs' => p ← f x; s ← set_of f xs'; mret ({[p]} ∪ s)
  end.

(** [[f(x) for x in xs]] where [f] may raise. *)
Fixpoint list_of {A B} (f : A → outcome B) (xs : list A) : outcome (list B) :=
  match xs with
  | [] => Ok []
  | x :: xs' => y ← f x; ys ← list_of f xs'; mret (y :: ys)
  end.

Definition rel_to (base : path) (p : path) : outcome path :=
  or_raise ValueError (relative_to p base).

Section Program.
Context (w : world).

(** A client call other than a listing.  [Stor] stands for lines
    145-146: opening the local file and sending it. *)
Definition ftp (c : call) : M unit :=
  λ h, match reply w h c with
       | None => (Ok (), [Called c None])
       | Some e => (Raise e, [Called c (Some e)])
       end.

(** [ftp_client.mlsd(path, facts)], read to its end. *)
Definition mlsd (p : path) (facts : list string) : M (list entry) :=
  λ _, match listing w facts p with
       | Ok infos => (Ok infos, [Called (Mlsd p facts) None])
       | Raise e => (Raise e, [Called (Mlsd p facts) (Some e)])
       end.

(** [recursive_get_dirs]; the list [remote_dirs] of the enclosing
    function is threaded through.  [depth] is the stack that is left:
    at [0] the call itself raises [RecursionError]. *)
Fixpoint recursive_get_dirs (depth : nat) (remote_dirs : list path) (p : path)
  : M (list path) :=
  match depth with
  | O => raise RecursionError
  | S depth' =>
      infos ← mlsd p ["type"];
      for_fold infos
        (λ remote_dirs file_info,
           ty ← lift (fact file_info "type");
           if decide (ty = "dir")
           then recursive_get_dirs depth' remote_dirs (joinpath p file_info.1)
           else mret remote_dirs)
        (remote_dirs ++ [p])
  end.

Definition get_remote_dirs (p : path) : M (list path) :=
  recursive_get_dirs (recursion_limit w) [] p.

Definition get_remote_files (p : path) : M (list remote_entry) :=
  remote_dirs ← get_remote_dirs p;
  for_fold remote_dirs
    (λ remote_files dir,
       remote_file_list ← mlsd dir ["size"; "modify"; "type"];
       files ← lift (file_entries dir remote_file_list);
       mret (remote_files ++ files))
    [].

(** The local walk of lines 107-112. *)
Definition walk_output : list (path * list string * list (string * local_info)) :=
  walk local_site_path (dir_node "output" (local_site w)).

Definition get_local_files : local_dict :=
  foldl (λ d '(root, _, files),
           foldl (λ d '(file, info), dict_set (joinpath root file) info d) d files)
        [] walk_output.

(** The change detection loop of lines 116-121. *)
Fixpoint find_changes (remote_files : list remote_entry) (items : local_dict)
    (changed_files : list path) : outcome (list path) :=
  match items with
  | [] => Ok changed_files
  | (local_file, local_file_info) :: rest =>
      remote_file ← rel_to local_site_path local_file;
      remote_file_info ← next_match remote_files remote_file;
      match remote_file_info with
      | None => find_changes remote_files rest (changed_files ++ [local_file])
      | Some info =>
          n ← or_raise ValueError (int w info.2);
          if decide (n < info_size local_file_info)%Z
          then find_changes remote_files rest (changed_files ++ [local_file])
          else find_changes remote_files rest changed_files
      end
  end.

(** Lines 114-126: the change set. *)
Definition changed_files (force : bool) (remote_files : list remote_entry)
    (local_files : local_dict) : M (list path) :=
  print MsgLooking;;
  changed ← lift (find_changes remote_files local_files []);
  if force then print MsgForce;; mret (keys local_files)
  else mret changed.

(** Lines 130-133. *)
Definition get_local_dirs : outcome (list path) :=
  list_of (rel_to ["output"])
    (walk_output ≫= λ '(root, dirs, _), joinpath root <$> dirs).

(** Lines 128-139: directory mirroring. *)
Definition mirror_directories (ftp_path : string) : M unit :=
  print MsgMirroring;;
  local_dirs ← lift get_local_dirs;
  dirs ← get_remote_dirs (Path w ftp_path);
  remote_dirs ← lift (list_of (rel_to (Path w ftp_path)) dirs);
  for_each local_dirs
    (λ d, if decide (d ∈ remote_dirs) then mret () else ftp (Mkd d)).

(** Lines 141-146: the upload loop. *)
Definition upload_files (ftp_path : string) (changed : list path) : M unit :=
  for_each changed
    (λ file,
       print (MsgUploading file);;
       rel ← lift (rel_to local_site_path file);
       ftp (Stor (Path w ftp_path ++ rel) file)).

(** Lines 41: the set of relative remote paths without a local file. *)
Definition files_to_delete (remote_files : list remote_entry)
    (local_files : local_dict) (site : path) : outcome (gset path) :=
  local_file_paths ← set_of (rel_to site) (keys local_files);
  remote_file_paths ← set_of (λ f : remote_entry, rel_to [] f.1.1) remote_files;
  mret (remote_file_paths ∖ local_file_paths).

Definition delete_one (ftp_path : string) (remote_file : path) : M unit :=
  let remote_full_path := Path w ftp_path ++ remote_file in
  try_except
    (ftp (Dele remote_full_path);; print (MsgDeleted remote_full_path))
    (λ e, match e with
          | error_perm _ => print (MsgDeleteFailed remote_full_path e)
          | _ => print (MsgDeleteUnexpected remote_full_path e)
          end).

Definition delete_remote_files_not_in_local (remote_files : list remote_entry)
    (local_files : local_dict) (site : path) (ftp_path : string) : M unit :=
  to_delete ← lift (files_to_delete remote_files local_files site);
  if decide (to_delete = ∅) then print MsgNothingToDelete
  else
    print (MsgDeleting (size to_delete));;
    for_each (elements to_delete) (delete_one ftp_path).

Definition getenv (key : string) : outcome string :=
  or_raise (KeyError key) (environ w !! key).

(** The body of the [try] block, lines 95-153. *)
Definition session (force : bool) (ftp_host ftp_username ftp_password ftp_path : string)
  : M unit :=
  print MsgConnecting;;
  ftp (Connect ftp_host 21);;
  ftp (Login ftp_username ftp_password);;
  ftp ProtP;;
  ftp (Cwd ftp_path);;
  print MsgGettingRemote;;
  remote_files ← get_remote_files [];
  print MsgGettingLocal;;
  let local_files := get_local_files in
  changed ← changed_files force remote_files local_files;
  mirror_directories ftp_path;;
  upload_files ftp_path changed;;
  print MsgChecking;;
  delete_remote_files_not_in_local remote_files local_files local_site_path ftp_path;;
  ftp Quit.

(** The script, after [parse_arguments()] returned [force]. *)
Definition main (force : bool) : M unit :=
  ftp_host ← lift (getenv "FTP_HOST");
  ftp_username ← lift (getenv "FTP_USERNAME");
  ftp_password ← lift (getenv "FTP_PASSWORD");
  ftp_path ← lift (getenv "FTP_PATH");
  try_finally
    (try_except (session force ftp_host ftp_username ftp_password ftp_path)
                (λ e, print (MsgError e)))
    (print MsgFinished).

End Program.

(** ** Sample worlds

    Concrete instances of [world], used to run the program inside Rocq. *)

(** Decimal digits to a number: what [int] does on the sizes a server
    sends.  Anything else is refused. *)
Fixpoint digits (s : string) (acc : Z) : option Z :=
  match s with
  | EmptyString => Some acc
  | String c s' =>
      let n := Z.of_N (Ascii.N_of_ascii c) in
      if decide (48 ≤ n ≤ 57)%Z then digits s' (10 * acc + (n - 48))%Z else None
  end.

Definition sample_int (s : string) : option Z :=
  match s with
  | EmptyString => None
  | _ => digits s 0%Z
  end.

(** Parts of a slash-separated string; a leading slash is the root part. *)
Fixpoint split_parts (s : string) (cur : string) : list string :=
  match s with
  | EmptyString => [cur]
  | String c s' =>
      if decide (c = "/"%char) then cur :: split_parts s' EmptyString
      else split_parts s' (cur +:+ String c EmptyString)
  end.

Definition sample_Path (s : string) : path :=
  (match s with String "/"%char _ => ["/"] | _ => [] end) ++
  filter (λ part, part ≠ "" ∧ part ≠ ".") (split_parts s EmptyString).

Definition sample_environ : gmap string string :=
  {[ "FTP_HOST" := "ftp.example.org"; "FTP_USERNAME" := "user";
     "FTP_PASSWORD" := "secret"; "FTP_PATH" := "/site" ]}.

Definition facts_of (ty modify sz : string) : gmap string string :=
  {[ "type" := ty; "modify" := modify; "size" := sz ]}.

(** Local: [output/a.txt] (10 bytes), [output/c.txt] (20 bytes),
    [output/css/] with [s.css] (7 bytes), [output/img/] (empty). *)
Definition sample_site : list node :=
  [ file_node "a.txt" 100 10; file_node "c.txt" 100 20;
    dir_node "css" [ file_node "s.css" 100 7 ];
    dir_node "img" [] ].

(** Remote: [b.txt], [c.txt] (15 bytes), [css/] with [s.css] (7 bytes)
    and [old.css], [tmp/] (empty).  The same tree is seen from ['.'] and
    from [/site]. *)
Definition sample_tree (rel : path) : outcome (list entry) :=
  if decide (rel = []) then
    Ok [ (".", facts_of "cdir" "20240101" "0");
         ("b.txt", facts_of "file" "20240101" "3");
         ("c.txt", facts_of "file" "20240101" "15");
         ("css", facts_of "dir" "20240101" "0");
         ("tmp", facts_of "dir" "20240101" "0") ]
  else if decide (rel = ["css"]) then
    Ok [ ("s.css", facts_of "file" "20240101" "7");
         ("old.css", facts_of "file" "20240101" "9") ]
  else if decide (rel = ["tmp"]) then Ok []
  else Raise (error_perm "550 No such directory").

Definition sample_listing (facts : list string) (p : path) : outcome (list entry) :=
  match p with
  | "/" :: "site" :: rel => sample_tree rel
  | _ => sample_tree p
  end.

(** A server that accepts every command. *)
Definition sample_world : world :=
  {| environ := sample_environ;
     local_site := sample_site;
     listing := sample_listing;
     reply := λ _ _, None;
     int := sample_int;
     Path := sample_Path;
     recursion_limit := 100 |}.

(** ** What the claims speak about *)

(** The paths of the calls of one kind in a log, in the order issued. *)
Definition deleted (evs : list event) : list path :=
  omap (λ ev, match ev with Called (Dele p) _ => Some p | _ => None end) evs.

Definition made_dirs (evs : list event) : list path :=
  omap (λ ev, match ev with Called (Mkd p) _ => Some p | _ => None end) evs.

Definition stored (evs : list event) : list path :=
  omap (λ ev, match ev with Called (Stor _ f) _ => Some f | _ => None end) evs.

Definition is_listing (ev : event) : Prop :=
  ∃ p facts r, ev = Called (Mlsd p facts) r.

(** An event that is neither a removal on the server nor the start of
    the deletion phase. *)
Definition quiet (ev : event) : Prop :=
  match ev with
  | Called (Dele _) _ | Called (Rmd _) _ | Printed MsgChecking => False
  | _ => True
  end.

(** Exceptions propagate: a call selected by [P] that raises is the last
    event of the computation, which raises the same exception. *)
Definition propagates {A} (P : call → Prop) (m : M A) : Prop :=
  ∀ h pre c x post,
    (m h).2 = pre ++ Called c (Some x) :: post → P c →
    post = [] ∧ (m h).1 = Raise x.

(** A call selected by [P] that raised. *)
Definition failing (P : call → Prop) (ev : event) : Prop :=
  ∃ c x, ev = Called c (Some x) ∧ P c.

(** Every event of the computation satisfies [Q]. *)
Definition emits {A} (Q : event → Prop) (m : M A) : Prop :=
  ∀ h, Forall Q (m h).2.

(** The computation does not look at the history. *)
Definition oblivious {A} (m : M A) : Prop := ∀ h h', m h = m h'.

Section Remote.
Context (w : world).

(** The directories the recursive listing reaches from [p]: [p] itself
    and whatever is reached from an entry of [p] tagged ['dir']. *)
Inductive reachable : path → path → Prop :=
  | reach_here p : reachable p p
  | reach_child p infos name facts d :
      listing w ["type"] p = Ok infos →
      (name, facts) ∈ infos →
      facts !! "type" = Some "dir" →
      reachable (joinpath p name) d →
      reachable p d.

(** A remote file: an entry tagged ['file'] in the full listing of a
    reachable directory, with its two facts. *)
Definition listed_file (root : path) (f : remote_entry) : Prop :=
  ∃ dir infos name facts,
    reachable root dir ∧
    listing w ["size"; "modify"; "type"] dir = Ok infos ∧
    (name, facts) ∈ infos ∧
    facts !! "type" = Some "file" ∧
    facts !! "modify" = Some f.1.2 ∧
    facts !! "size" = Some f.2 ∧
    f.1.1 = joinpath dir name.
End Remote.

(** The log entries of a successful listing of [d]: for the directory
    search, and for the file search. *)
Definition type_listed (d : path) : event := Called (Mlsd d ["type"]) None.

Definition fully_listed (d : path) : event :=
  Called (Mlsd d ["size"; "modify"; "type"]) None.

(** [rel] names a directory below the given entries. *)
Fixpoint is_dir_in (rel : path) (children : list node) : Prop :=
  match rel with
  | [] => False
  | d :: rel' =>
      ∃ cs, dir_node d cs ∈ children ∧ (rel' = [] ∨ is_dir_in rel' cs)
  end.

(** [rel] names a file below the given entries, with the given facts. *)
Fixpoint is_file_in (rel : path) (info : local_info) (children : list node) : Prop :=
  match rel with
  | [] => False
  | [f] => file_node f (info_modify info) (info_size info) ∈ children
  | d :: rel' => ∃ cs, dir_node d cs ∈ children ∧ is_file_in rel' info cs
  end.

(** A directory never holds two entries of the same name. *)
Inductive well_formed : list node → Prop :=
  | wf_entries children :
      NoDup (node_name <$> children) →
      (∀ d cs, dir_node d cs ∈ children → well_formed cs) →
      well_formed children.

(** The first remote entry at relative path [rel], if there is one. *)
Definition first_at (rel : path) (remote_files : list remote_entry)
    (r : remote_entry) : Prop :=
  ∃ pre post, remote_files = pre ++ r :: post ∧ r.1.1 = rel ∧
              ∀ x, x ∈ pre → x.1.1 ≠ rel.

(** A listing call logged with the answer of the server. *)
Definition answered (w : world) (ev : event) : Prop :=
  ∃ p facts,
    ev = Called (Mlsd p facts)
           (match listing w facts p with Ok _ => None | Raise e => Some e end).

(** The server lists [d] and every entry has the facts the program reads. *)
Definition answers (w : world) (facts : list string) (d : path) : Prop :=
  ∃ infos, listing w facts d = Ok infos ∧
    ∀ name fs, (name, fs) ∈ infos →
      is_Some (fs !! "type") ∧
      (fs !! "type" = Some "file" → Forall (λ k, is_Some (fs !! k)) facts).

(** The upload trigger for the local file at relative path [rel]. *)
Definition selected (w : world) (remote_files : list remote_entry) (rel : path)
    (info : local_info) : Prop :=
  (∀ r, r ∈ remote_files → r.1.1 ≠ rel) ∨
  (∃ r n, first_at rel remote_files r ∧ int w r.2 = Some n ∧
          (n < info_size info)%Z).

(** The dictionary built by assigning the pairs of a list in order. *)
Definition dict_of (acc : local_dict) (kvs : list (path * local_info)) : local_dict :=
  foldl (λ d kv, dict_set kv.1 kv.2 d) acc kvs.

(** The line logged for a delete call that raised [e]. *)
Definition delete_failure_msg (p : path) (e : exn) : msg :=
  match e with
  | error_perm _ => MsgDeleteFailed p e
  | _ => MsgDeleteUnexpected p e
  end.

(** What the deletion loop leaves in the log: for each path a delete
    call, then the line that reports its result. *)
Inductive deletion_log (w : world) (ftp_path : string)
  : list path → list event → Prop :=
  | deletion_log_nil : deletion_log w ftp_path [] []
  | deletion_log_cons rel rels r evs :
      deletion_log w ftp_path rels evs →
      deletion_log w ftp_path (rel :: rels)
        (Called (Dele (Path w ftp_path ++ rel)) r ::
         Printed (match r with
                  | None => MsgDeleted (Path w ftp_path ++ rel)
                  | Some e => delete_failure_msg (Path w ftp_path ++ rel) e
                  end) :: evs).

Definition is_mkd (ev : event) : Prop := ∃ d r, ev = Called (Mkd d) r.

(** The events of the mirroring phase. *)
Definition mirror_event (ev : event) : Prop :=
  ev = Printed MsgMirroring ∨ is_listing ev ∨ is_mkd ev.

(** The events of the upload loop. *)
Definition upload_event (ev : event) : Prop :=
  (∃ f, ev = Printed (MsgUploading f)) ∨ (∃ p f r, ev = Called (Stor p f) r).

(** The four settings the script reads from the environment. *)
Definition configured (w : world) (host user pw ftp_path : string) : Prop :=
  environ w !! "FTP_HOST" = Some host ∧
  environ w !! "FTP_USERNAME" = Some user ∧
  environ w !! "FTP_PASSWORD" = Some pw ∧
  environ w !! "FTP_PATH" = Some ftp_path.

(** The closing lines: the error, if the session raised one, then the
    banner. *)
Definition closing (r : outcome ()) : list event :=
  match r with
  | Ok _ => [Printed MsgFinished]
  | Raise e => [Printed (MsgError e); Printed MsgFinished]
  end.

(** The log of a session: either it never came to the deletion phase, or
    it is made of what came before, the deletion engine run on the first
    remote listing and the local files, and the closing [quit]. *)
Definition session_log (w : world) (ftp_path : string) (evs : list event) : Prop :=
  Forall quiet evs ∨
  ∃ remote_files pre hD evsD x post,
    (get_remote_files w [] []).1 = Ok remote_files ∧
    Forall quiet pre ∧ Forall quiet post ∧
    delete_remote_files_not_in_local w remote_files (get_local_files w)
      local_site_path ftp_path hD = (Ok (), evsD) ∧
    evs = pre ++ Printed MsgChecking :: evsD ++ Called Quit x :: post.


(** The remote files of [sample_world], as [get_remote_files] lists them. *)
Definition sample_remote_files : list remote_entry :=
  [ (["b.txt"], "20240101", "3"); (["c.txt"], "20240101", "15");
    (["css"; "s.css"], "20240101", "7"); (["css"; "old.css"], "20240101", "9") ].

(** No setting in the environment. *)
Definition unconfigured_world : world :=
  {| environ := ∅;
     local_site := sample_site;
     listing := sample_listing;
     reply := λ _ _, None;
     int := sample_int;
     Path := sample_Path;
     recursion_limit := 100 |}.

(** The server breaks the transfer of [c.txt]. *)
Definition broken_upload_world : world :=
  {| environ := sample_environ;
     local_site := sample_site;
     listing := sample_listing;
     reply := λ _ c, match c with
                     | Stor _ ["output"; "c.txt"] => Some (OtherError "timed out")
                     | _ => None
                     end;
     int := sample_int;
     Path := sample_Path;
     recursion_limit := 100 |}.


(** ** Further observations on a log *)

(** The store calls of a log: remote path and local file, in the order
    issued. *)
Definition stor_calls (evs : list event) : list (path * path) :=
  omap (λ ev, match ev with Called (Stor r f) _ => Some (r, f) | _ => None end) evs.

(** The place of a call in the script. *)
Definition rank (c : call) : nat :=
  match c with
  | Connect _ _ => 0
  | Login _ _ => 1
  | ProtP => 2
  | Cwd _ => 3
  | Mlsd _ _ => 4
  | Mkd _ => 5
  | Stor _ _ => 6
  | Dele _ => 7
  | Rmd _ => 7
  | Quit => 8
  end.

(** No call of the log is followed by a call of a lower rank. *)
Definition in_order (evs : list event) : Prop :=
  ∀ pre c r post c' r',
    evs = pre ++ Called c r :: post → Called c' r' ∈ post → (rank c ≤ rank c')%nat.

(** The calls of the log have their ranks between [lo] and [hi]. *)
Definition within (lo hi : nat) (evs : list event) : Prop :=
  ∀ c r, Called c r ∈ evs → (lo ≤ rank c ≤ hi)%nat.

(** An entry of a listing that [get_remote_files] can read: it has a
    type, and a file has its [modify] and [size] facts too. *)
Definition readable (e : entry) : Prop :=
  is_Some (e.2 !! "type") ∧
  (e.2 !! "type" = Some "file" →
   is_Some (e.2 !! "modify") ∧ is_Some (e.2 !! "size")).

(** The uploads of a run that completes its upload loop: the change set
    computed from the first remote listing and the local files. *)
Definition expected_uploads (w : world) (force : bool) : list path :=
  match (get_remote_files w [] []).1 with
  | Ok remote_files =>
      match (changed_files w force remote_files (get_local_files w) []).1 with
      | Ok changed => changed
      | Raise _ => []
      end
  | Raise _ => []
  end.

(** A server on which every directory holds a directory [again]. *)
Definition endless_world : world :=
  {| environ := sample_environ;
     local_site := sample_site;
     listing := λ _ _, Ok [ ("note.txt", facts_of "file" "20240101" "1");
                            ("again", facts_of "dir" "20240101" "0") ];
     reply := λ _ _, None;
     int := sample_int;
     Path := sample_Path;
     recursion_limit := 5 |}.



(** Local: [output/docs/] with [api/] inside, which holds [index.html].
    Neither directory is on the server of [sample_listing]. *)
Definition nested_site_world : world :=
  {| environ := sample_environ;
     local_site := [ dir_node "docs" [ dir_node "api" [ file_node "index.html" 100 12 ] ] ];
     listing := sample_listing;
     reply := λ _ _, None;
     int := sample_int;
     Path := sample_Path;
     recursion_limit := 100 |}.

(** An event that is neither a store call nor the start of the deletion
    phase. *)
Definition calm (ev : event) : Prop :=
  match ev with
  | Called (Stor _ _) _ | Printed MsgChecking => False
  | _ => True
  end.

(** What a call may create or write on the server: a directory of the
    local tree, or a file of the local tree at its mirrored path. *)
Definition local_target (w : world) (ev : event) : Prop :=
  match ev with
  | Called (Mkd d) _ => is_dir_in d (local_site w)
  | Called (Stor remote f) _ =>
      ∃ ftp_path rel info,
        environ w !! "FTP_PATH" = Some ftp_path ∧
        f = local_site_path ++ rel ∧
        remote = Path w ftp_path ++ rel ∧
        is_file_in rel info (local_site w)
  | _ => True
  end.

(** The calls of the log are in order and have ranks from [lo] to [hi]. *)
Definition banded (lo hi : nat) (evs : list event) : Prop :=
  in_order evs ∧ within lo hi evs.

(** ** A console that may refuse a line

    Above, [print] always succeeds: the console takes every line.  The
    real [print] and [tqdm.write] raise when standard output cannot take
    the line (an encoding without the emoji of the messages, a file name
    it cannot encode, a closed pipe).  Here the script is given again
    with a console that answers each line, as the server answers each
    call: [stdout h m] is the exception raised when [m] is printed after
    the events [h], if any.  What does not print is taken from above.
    The progress bars of [tqdm] go to standard error and are left out,
    as above. *)
Module Console.
Section Program.
Context (stdout : list event → msg → option exn) (w : world).

(** [print(m)] and [tqdm.write(m)]: a refused line is not logged. *)
Definition print (m : msg) : M unit :=
λ h, match stdout h m with
     | None => (Ok (), [Printed m])
     | Some e => (Raise e, [])
     end.

(** Lines 114-126: the change set. *)
Definition changed_files (force : bool) (remote_files : list remote_entry)
  (local_files : local_dict) : M (list path) :=
print MsgLooking;;
changed ← lift (find_changes w remote_files local_files []);
if force then print MsgForce;; mret (keys local_files)
else mret changed.

(** Lines 128-139: directory mirroring. *)
Definition mirror_directories (ftp_path : string) : M unit :=
print MsgMirroring;;
local_dirs ← lift (get_local_dirs w);
dirs ← get_remote_dirs w (Path w ftp_path);
remote_dirs ← lift (list_of (rel_to (Path w ftp_path)) dirs);
for_each local_dirs
  (λ d, if decide (d ∈ remote_dirs) then mret () else ftp w (Mkd d)).

(** Lines 141-146: the upload loop. *)
Definition upload_files (ftp_path : string) (changed : list path) : M unit :=
for_each changed
  (λ file,
     print (MsgUploading file);;
     rel ← lift (rel_to local_site_path file);
     ftp w (Stor (Path w ftp_path ++ rel) file)).

(** Lines 49-56: a line refused inside the [try] is handled by the
  second [except] clause; a line refused inside a handler leaves the
  function. *)
Definition delete_one (ftp_path : string) (remote_file : path) : M unit :=
let remote_full_path := Path w ftp_path ++ remote_file in
try_except
  (ftp w (Dele remote_full_path);; print (MsgDeleted remote_full_path))
  (λ e, match e with
        | error_perm _ => print (MsgDeleteFailed remote_full_path e)
        | _ => print (MsgDeleteUnexpected remote_full_path e)
        end).

Definition delete_remote_files_not_in_local (remote_files : list remote_entry)
  (local_files : local_dict) (site : path) (ftp_path : string) : M unit :=
to_delete ← lift (files_to_delete remote_files local_files site);
if decide (to_delete = ∅) then print MsgNothingToDelete
else
  print (MsgDeleting (size to_delete));;
  for_each (elements to_delete) (delete_one ftp_path).

(** The body of the [try] block, lines 95-153. *)
Definition session (force : bool) (ftp_host ftp_username ftp_password ftp_path : string)
: M unit :=
print MsgConnecting;;
ftp w (Connect ftp_host 21);;
ftp w (Login ftp_username ftp_password);;
ftp w ProtP;;
ftp w (Cwd ftp_path);;
print MsgGettingRemote;;
remote_files ← get_remote_files w [];
print MsgGettingLocal;;
let local_files := get_local_files w in
changed ← changed_files force remote_files local_files;
mirror_directories ftp_path;;
upload_files ftp_path changed;;
print MsgChecking;;
delete_remote_files_not_in_local remote_files local_files local_site_path ftp_path;;
ftp w Quit.

(** The script, after [parse_arguments()] returned [force]. *)
Definition main (force : bool) : M unit :=
ftp_host ← lift (getenv w "FTP_HOST");
ftp_username ← lift (getenv w "FTP_USERNAME");
ftp_password ← lift (getenv w "FTP_PASSWORD");
ftp_path ← lift (getenv w "FTP_PATH");
try_finally
  (try_except (session force ftp_host ftp_username ftp_password ftp_path)
              (λ e, print (MsgError e)))
  (print MsgFinished).

End Program.
End Console.

(** The console of the development above: it takes every line. *)
Definition accepting : list event → msg → option exn := λ _ _, None.

(** A console whose encoding lacks the emoji: it refuses the lines that
    carry one (lines 44, 96, 103, 106, 115, 125, 129, 149, 156 and 159)
    and takes the plain ones. *)
Definition ascii_console : list event → msg → option exn :=
  λ _ m, match m with
         | MsgUploading _ | MsgDeleting _ | MsgDeleted _
         | MsgDeleteFailed _ _ | MsgDeleteUnexpected _ _ => None
         | _ => Some (OtherError "UnicodeEncodeError")
         end.

(** A console that cannot print the name of [output/c.txt]. *)
Definition picky_console : list event → msg → option exn :=
  λ _ m, match m with
         | MsgUploading ["output"; "c.txt"] => Some (OtherError "UnicodeEncodeError")
         | _ => None
         end.

(** Remote: a directory [old/] with [page.html] that has no local
    counterpart, beside [c.txt].  Local: the sample site. *)
Definition stale_listing (facts : list string) (p : path) : outcome (list entry) :=
  let tree (rel : path) : outcome (list entry) :=
    if decide (rel = []) then
      Ok [ ("c.txt", facts_of "file" "20240101" "20");
           ("old", facts_of "dir" "20240101" "0") ]
    else if decide (rel = ["old"]) then
      Ok [ ("page.html", facts_of "file" "20240101" "5") ]
    else Raise (error_perm "550 No such directory") in
  match p with
  | "/" :: "site" :: rel => tree rel
  | _ => tree p
  end.

Definition stale_dir_world : world :=
  {| environ := sample_environ;
     local_site := sample_site;
     listing := stale_listing;
     reply := λ _ _, None;
     int := sample_int;
     Path := sample_Path;
     recursion_limit := 100 |}.

(** * Proofs *)

(** ** The monad *)

Lemma run_bind {A B} (m : M A) (f : A → M B) h :
  (m ≫= f) h =
  match m h with
  | (Ok a, evs) => let '(r, evs') := f a (h ++ evs) in (r, evs ++ evs')
  | (Raise e, evs) => (Raise e, evs)
  end.
Proof. reflexivity. Qed.

Lemma bind_inv {A B} (m : M A) (f : A → M B) h r evs :
  (m ≫= f) h = (r, evs) →
  (∃ e, m h = (Raise e, evs) ∧ r = Raise e) ∨
  (∃ a evs1 evs2, m h = (Ok a, evs1) ∧ f a (h ++ evs1) = (r, evs2) ∧
                  evs = evs1 ++ evs2).
Proof.
  rewrite run_bind. destruct (m h) as [[a|e] evs1].
  - destruct (f a (h ++ evs1)) as [r' evs2] eqn:Hf.
    intros [= <- <-]. right. by exists a, evs1, evs2.
  - intros [= <- <-]. left. by exists e.
Qed.

Lemma bind_ok {A B} (m : M A) (f : A → M B) h a evs1 :
  m h = (Ok a, evs1) →
  (m ≫= f) h = ((f a (h ++ evs1)).1, evs1 ++ (f a (h ++ evs1)).2).
Proof. intros Hm. rewrite run_bind, Hm. by destruct (f a (h ++ evs1)). Qed.

Lemma bind_raise {A B} (m : M A) (f : A → M B) h e evs :
  m h = (Raise e, evs) → (m ≫= f) h = (Raise e, evs).
Proof. intros Hm. by rewrite run_bind, Hm. Qed.

Lemma outcome_bind_inv {A B} (o : outcome A) (f : A → outcome B) b :
  o ≫= f = Ok b → ∃ a, o = Ok a ∧ f a = Ok b.
Proof. destruct o as [a|e]; [|done]. intros H. by exists a. Qed.

Lemma or_raise_ok {A} e (o : option A) a : or_raise e o = Ok a ↔ o = Some a.
Proof. destruct o; simpl; split; congruence. Qed.

(** Locating an event of a concatenation. *)
Lemma locate_right {X} (P : X → Prop) (l1 l2 pre post : list X) x :
  pre ++ x :: post = l1 ++ l2 → P x → Forall (λ y, ¬ P y) l1 →
  ∃ pre', pre = l1 ++ pre' ∧ l2 = pre' ++ x :: post.
Proof.
  revert pre. induction l1 as [|y l1 IH]; intros pre Heq Hx Hl1.
  - by exists pre.
  - destruct pre as [|z pre]; simplify_eq/=.
    + by apply Forall_cons in Hl1 as [? _].
    + apply Forall_cons in Hl1 as [_ Hl1].
      destruct (IH pre) as (pre' & -> & ->); [done..|]. by exists pre'.
Qed.

Lemma locate_left {X} (P : X → Prop) (l1 l2 pre post : list X) x :
  pre ++ x :: post = l1 ++ l2 → P x → Forall (λ y, ¬ P y) l2 →
  ∃ post', post = post' ++ l2 ∧ l1 = pre ++ x :: post'.
Proof.
  revert pre. induction l1 as [|y l1 IH]; intros pre Heq Hx Hl2.
  - simpl in Heq. subst l2. apply Forall_app in Hl2 as [_ Hl2].
    by apply Forall_cons in Hl2 as [? _].
  - destruct pre as [|z pre]; simplify_eq/=.
    + by exists l1.
    + destruct (IH pre) as (post' & -> & ->); [done..|]. by exists post'.
Qed.

(** ** Propagation of exceptions *)

Lemma propagates_ok {A} P (m : M A) h a evs :
  propagates P m → m h = (Ok a, evs) → Forall (λ ev, ¬ failing P ev) evs.
Proof.
  intros Hm Hrun. apply Forall_forall. intros ev Hev (c & x & -> & HP).
  apply list_elem_of_split in Hev as (pre & post & ->).
  destruct (Hm h pre c x post) as [_ Hr]; [by rewrite Hrun|done|].
  by rewrite Hrun in Hr.
Qed.

Lemma propagates_bind {A B} P (m : M A) (f : A → M B) :
  propagates P m → (∀ a, propagates P (f a)) → propagates P (m ≫= f).
Proof.
  intros Hm Hf h pre c x post. rewrite run_bind.
  destruct (m h) as [[a|e] evs1] eqn:Hrun.
  - destruct (f a (h ++ evs1)) as [r evs2] eqn:Hrun2. simpl.
    intros Heq HP.
    destruct (locate_right (failing P) evs1 evs2 pre post (Called c (Some x)))
      as (pre' & -> & ->); [done|by exists c, x|by eapply propagates_ok|].
    destruct (Hf a (h ++ evs1) pre' c x post) as [-> Hr];
      [by rewrite Hrun2|done|]. by rewrite Hrun2 in Hr.
  - simpl. intros Heq HP. specialize (Hm h pre c x post).
    rewrite Hrun in Hm. destruct Hm as [-> Hr]; [done..|].
    simpl in Hr. by simplify_eq.
Qed.

Lemma propagates_ret {A} P (a : A) : propagates P (mret a).
Proof. intros h [|??] c x post [=]. Qed.

Lemma propagates_lift {A} P (o : outcome A) : propagates P (lift o).
Proof. intros h [|??] c x post [=]. Qed.

Lemma propagates_print P m : propagates P (print m).
Proof. intros h [|? [|??]] c x post [=]. Qed.

Lemma propagates_ftp w P c : propagates P (ftp w c).
Proof.
  intros h pre c' x post. unfold ftp. destruct (reply w h c); simpl.
  - destruct pre as [|? [|??]]; intros [=]; by simplify_eq.
  - destruct pre as [|? [|??]]; intros [=].
Qed.

Lemma propagates_mlsd w P p facts : propagates P (mlsd w p facts).
Proof.
  intros h pre c' x post. unfold mlsd. destruct (listing w facts p); simpl.
  - destruct pre as [|? [|??]]; intros [=].
  - destruct pre as [|? [|??]]; intros [=]; by simplify_eq.
Qed.

Lemma propagates_for_each {A} P (xs : list A) body :
  (∀ x, propagates P (body x)) → propagates P (for_each xs body).
Proof.
  intros Hbody. induction xs as [|x xs IH]; simpl.
  - apply propagates_ret.
  - apply propagates_bind; [done|]. by intros _.
Qed.

Lemma propagates_for_fold {A S} P (xs : list A) (body : S → A → M S) s :
  (∀ s x, propagates P (body s x)) → propagates P (for_fold xs body s).
Proof.
  intros Hbody. revert s. induction xs as [|x xs IH]; intros s; simpl.
  - apply propagates_ret.
  - by apply propagates_bind.
Qed.

Lemma propagates_weaken {A} (P Q : call → Prop) (m : M A) :
  (∀ c, Q c → P c) → propagates P m → propagates Q m.
Proof. intros HPQ Hm h pre c x post Heq Hc. eapply Hm; eauto. Qed.

(** ** Events of a computation *)

Lemma emits_bind {A B} Q (m : M A) (f : A → M B) :
  emits Q m → (∀ a, emits Q (f a)) → emits Q (m ≫= f).
Proof.
  intros Hm Hf h. rewrite run_bind. specialize (Hm h).
  destruct (m h) as [[a|e] evs1]; [|done].
  specialize (Hf a (h ++ evs1)). destruct (f a (h ++ evs1)) as [r evs2].
  by apply Forall_app.
Qed.

Lemma emits_ret {A} Q (a : A) : emits Q (mret a).
Proof. intros h. constructor. Qed.

Lemma emits_lift {A} Q (o : outcome A) : emits Q (lift o).
Proof. intros h. constructor. Qed.

Lemma emits_print (Q : event → Prop) m : Q (Printed m) → emits Q (print m).
Proof. intros HQ h. by repeat constructor. Qed.

Lemma emits_ftp w (Q : event → Prop) c :
  (∀ r, Q (Called c r)) → emits Q (ftp w c).
Proof. intros HQ h. unfold ftp. destruct (reply w h c); by repeat constructor. Qed.

Lemma emits_mlsd w (Q : event → Prop) p facts :
  (∀ r, Q (Called (Mlsd p facts) r)) → emits Q (mlsd w p facts).
Proof.
  intros HQ h. unfold mlsd. destruct (listing w facts p); by repeat constructor.
Qed.

Lemma emits_for_each {A} Q (xs : list A) body :
  (∀ x, emits Q (body x)) → emits Q (for_each xs body).
Proof.
  intros Hbody. induction xs as [|x xs IH]; simpl.
  - apply emits_ret.
  - apply emits_bind; [done|]. by intros _.
Qed.

Lemma emits_for_fold {A S} Q (xs : list A) (body : S → A → M S) s :
  (∀ s x, emits Q (body s x)) → emits Q (for_fold xs body s).
Proof.
  intros Hbody. revert s. induction xs as [|x xs IH]; intros s; simpl.
  - apply emits_ret.
  - by apply emits_bind.
Qed.

Lemma emits_try_except {A} Q (body : M A) handler :
  emits Q body → (∀ e, emits Q (handler e)) → emits Q (try_except body handler).
Proof.
  intros Hb Hh h. unfold try_except. specialize (Hb h).
  destruct (body h) as [[a|e] evs1]; [done|].
  specialize (Hh e (h ++ evs1)). destruct (handler e (h ++ evs1)) as [r evs2].
  by apply Forall_app.
Qed.

Lemma emits_try_finally {A} Q (body : M A) final :
  emits Q body → emits Q final → emits Q (try_finally body final).
Proof.
  intros Hb Hf h. unfold try_finally. specialize (Hb h).
  destruct (body h) as [r evs1]. specialize (Hf (h ++ evs1)).
  destruct (final (h ++ evs1)) as [[[]|e] evs2]; by apply Forall_app.
Qed.

Lemma emits_weaken {A} (Q Q' : event → Prop) (m : M A) :
  (∀ ev, Q ev → Q' ev) → emits Q m → emits Q' m.
Proof. intros HQ Hm h. eapply Forall_impl; [apply Hm|done]. Qed.

(** ** Computations that ignore the history *)

Lemma oblivious_bind {A B} (m : M A) (f : A → M B) :
  oblivious m → (∀ a, oblivious (f a)) → oblivious (m ≫= f).
Proof.
  intros Hm Hf h h'. rewrite !run_bind, (Hm h h').
  destruct (m h') as [[a|e] evs1]; [|done]. by rewrite (Hf a (h ++ evs1) (h' ++ evs1)).
Qed.

Lemma oblivious_ret {A} (a : A) : oblivious (mret a).
Proof. done. Qed.

Lemma oblivious_lift {A} (o : outcome A) : oblivious (lift o).
Proof. done. Qed.

Lemma oblivious_print m : oblivious (print m).
Proof. done. Qed.

Lemma oblivious_mlsd w p facts : oblivious (mlsd w p facts).
Proof. done. Qed.

Lemma oblivious_for_fold {A S} (xs : list A) (body : S → A → M S) s :
  (∀ s x, oblivious (body s x)) → oblivious (for_fold xs body s).
Proof.
  intros Hbody. revert s. induction xs as [|x xs IH]; intros s; simpl.
  - apply oblivious_ret.
  - by apply oblivious_bind.
Qed.

(** ** Inversion of the primitive steps *)

Lemma lift_inv {A} (o : outcome A) h r evs :
  lift o h = (r, evs) → r = o ∧ evs = [].
Proof. by intros [= <- <-]. Qed.

Lemma ret_inv {A} (a : A) h r evs :
  (mret a : M A) h = (r, evs) → r = Ok a ∧ evs = [].
Proof. by intros [= <- <-]. Qed.

Lemma print_inv m h r evs :
  print m h = (r, evs) → r = Ok () ∧ evs = [Printed m].
Proof. by intros [= <- <-]. Qed.

Lemma mlsd_inv w p facts h r evs :
  mlsd w p facts h = (r, evs) →
  r = listing w facts p ∧
  evs = [Called (Mlsd p facts)
           (match listing w facts p with Ok _ => None | Raise e => Some e end)].
Proof. unfold mlsd. destruct (listing w facts p); by intros [= <- <-]. Qed.

Lemma ftp_inv w c h r evs :
  ftp w c h = (r, evs) →
  evs = [Called c (reply w h c)] ∧
  r = match reply w h c with None => Ok () | Some e => Raise e end.
Proof. unfold ftp. destruct (reply w h c); by intros [= <- <-]. Qed.

Section Enumeration.
Context (w : world).

Lemma recursive_get_dirs_ok depth acc p h ds evs :
  recursive_get_dirs w depth acc p h = (Ok ds, evs) →
  ∃ new, ds = acc ++ new ∧ evs = type_listed <$> new ∧
         ∀ d, d ∈ new ↔ reachable w p d.
Proof.
  revert acc p h ds evs.
  induction depth as [|depth IH]; intros acc p h ds evs Hrun; [done|].
  simpl in Hrun.
  apply bind_inv in Hrun as [(e & _ & [=])|(infos & evs1 & evs2 & Hm & Hloop & ->)].
  apply mlsd_inv in Hm as [Hlist ->]. symmetry in Hlist. rewrite Hlist.
  assert (∀ l acc h ds evs,
    l ⊆ infos →
    for_fold l
      (λ remote_dirs file_info,
         ty ← lift (fact file_info "type");
         if decide (ty = "dir")
         then recursive_get_dirs w depth remote_dirs (joinpath p file_info.1)
         else mret remote_dirs) acc h = (Ok ds, evs) →
    ∃ new, ds = acc ++ new ∧ evs = type_listed <$> new ∧
      ∀ d, d ∈ new ↔
           ∃ name facts, (name, facts) ∈ l ∧ facts !! "type" = Some "dir" ∧
                         reachable w (joinpath p name) d) as Hfold.
  { clear Hloop. intros l. induction l as [|[name facts] l IHl];
      intros acc' h' ds' evs' Hsub Hrun.
    - simpl in Hrun. apply ret_inv in Hrun as [[= <-] ->]. exists []. rewrite app_nil_r.
      split_and!; [done..|]. intros d. split; [by intros ?%elem_of_nil|].
      by intros (? & ? & ?%elem_of_nil & _).
    - simpl in Hrun.
      apply bind_inv in Hrun as [(e & _ & [=])|(acc1 & evs5 & evs6 & Hstep & Hrest & ->)].
      apply bind_inv in Hstep as [(e & _ & [=])|(x & evs3 & evs4 & Hfact & Hstep & ->)].
      apply lift_inv in Hfact as [Hfact ->]. symmetry in Hfact.
      apply or_raise_ok in Hfact. simpl in Hfact, Hstep.
      assert (l ⊆ infos) as Hsub'.
      { intros y Hy. apply Hsub. by right. }
      destruct (decide (x = "dir")) as [->|Hne].
      + apply IH in Hstep as (new1 & -> & -> & Hnew1).
        apply IHl in Hrest as (new2 & -> & -> & Hnew2); [|done].
        exists (new1 ++ new2). rewrite fmap_app, app_assoc.
        split_and!; [done..|]. intros d. rewrite elem_of_app, Hnew1, Hnew2.
        split.
        * intros [?|(n & f & ? & ? & ?)].
          -- exists name, facts. split_and!; [by left|done..].
          -- exists n, f. split_and!; [by right|done..].
        * intros (n & f & [[= -> ->]|?]%elem_of_cons & ? & ?); [by left|].
          right. by exists n, f.
      + apply ret_inv in Hstep as [[= <-] ->].
        apply IHl in Hrest as (new2 & -> & -> & Hnew2); [|done].
        exists new2. split_and!; [done..|]. intros d. rewrite Hnew2.
        split.
        * intros (n & f & ? & ? & ?). exists n, f. split_and!; [by right|done..].
        * intros (n & f & [[= -> ->]|?]%elem_of_cons & ? & ?); [congruence|].
          by exists n, f. }
  apply Hfold in Hloop as (new & -> & -> & Hnew); [|done].
  exists (p :: new). rewrite <-app_assoc. split_and!; [done..|].
  intros d. rewrite elem_of_cons, Hnew. split.
  - intros [->|(name & facts & ? & ? & ?)]; [constructor|].
    eapply reach_child; eauto.
  - intros Hr. inversion Hr; simplify_eq; [by left|].
    right. do 2 eexists. split_and!; [|done..]. congruence.
Qed.

Lemma get_remote_dirs_ok p h ds evs :
  get_remote_dirs w p h = (Ok ds, evs) →
  evs = type_listed <$> ds ∧ ∀ d, d ∈ ds ↔ reachable w p d.
Proof.
  intros (new & -> & -> & Hnew)%recursive_get_dirs_ok. done.
Qed.

Lemma file_entries_ok dir infos files :
  file_entries dir infos = Ok files →
  ∀ f, f ∈ files ↔
       ∃ name facts, (name, facts) ∈ infos ∧
         facts !! "type" = Some "file" ∧
         facts !! "modify" = Some f.1.2 ∧
         facts !! "size" = Some f.2 ∧
         f.1.1 = joinpath dir name.
Proof.
  revert files. induction infos as [|[name facts] infos IH]; intros files Hrun f.
  - simplify_eq/=. split; [by intros ?%elem_of_nil|].
    by intros (? & ? & ?%elem_of_nil & _).
  - simpl in Hrun.
    apply outcome_bind_inv in Hrun as (ty & Hty%or_raise_ok & Hrun).
    simpl in Hty. destruct (decide (ty = "file")) as [->|Hne].
    + apply outcome_bind_inv in Hrun as (m & Hm%or_raise_ok & Hrun).
      apply outcome_bind_inv in Hrun as (s & Hs%or_raise_ok & Hrun).
      apply outcome_bind_inv in Hrun as (rest & Hrest & [= <-]).
      simpl in Hm, Hs. rewrite elem_of_cons, (IH _ Hrest). split.
      * intros [->|(n & fs & ? & ?)].
        -- exists name, facts. split_and!; [by left|done..].
        -- exists n, fs. split_and!; [by right|tauto..].
      * intros (n & fs & [[= -> ->]|?]%elem_of_cons & ? & ? & ? & ?).
        -- left. destruct f as [[??]?]. simplify_eq/=. done.
        -- right. by exists n, fs.
    + rewrite (IH _ Hrun). split.
      * intros (n & fs & ? & ?). exists n, fs. split_and!; [by right|tauto..].
      * intros (n & fs & [[= -> ->]|?]%elem_of_cons & ? & ?); [congruence|].
        by exists n, fs.
Qed.

Lemma get_remote_files_ok root h files evs :
  get_remote_files w root h = (Ok files, evs) →
  ∃ ds, (∀ d, d ∈ ds ↔ reachable w root d) ∧
        evs = (type_listed <$> ds) ++ (fully_listed <$> ds) ∧
        ∀ f, f ∈ files ↔ listed_file w root f.
Proof.
  unfold get_remote_files. intros Hrun.
  apply bind_inv in Hrun as [(e & _ & [=])|(ds & evs1 & evs2 & Hdirs & Hloop & ->)].
  apply get_remote_dirs_ok in Hdirs as [-> Hds].
  exists ds. split; [done|].
  assert (∀ l acc h files evs,
    for_fold l
      (λ remote_files dir,
         remote_file_list ← mlsd w dir ["size"; "modify"; "type"];
         files ← lift (file_entries dir remote_file_list);
         mret (remote_files ++ files)) acc h = (Ok files, evs) →
    ∃ new, files = acc ++ new ∧ evs = fully_listed <$> l ∧
      ∀ f, f ∈ new ↔
        ∃ dir infos name facts, dir ∈ l ∧
          listing w ["size"; "modify"; "type"] dir = Ok infos ∧
          (name, facts) ∈ infos ∧
          facts !! "type" = Some "file" ∧
          facts !! "modify" = Some f.1.2 ∧
          facts !! "size" = Some f.2 ∧
          f.1.1 = joinpath dir name) as Hfold.
  { clear. intros l. induction l as [|dir l IH]; intros acc h files evs Hrun.
    - simpl in Hrun. apply ret_inv in Hrun as [[= <-] ->].
      exists []. rewrite app_nil_r. split_and!; [done..|].
      intros f. split; [by intros ?%elem_of_nil|].
      by intros (? & ? & ? & ? & ?%elem_of_nil & _).
    - simpl in Hrun.
      apply bind_inv in Hrun
        as [(e & _ & [=])|(acc1 & evs1 & evs2 & Hstep & Hrest & ->)].
      apply bind_inv in Hstep
        as [(e & _ & [=])|(infos & evs3 & evs4 & Hl & Hstep & ->)].
      apply mlsd_inv in Hl as [Hl ->]. symmetry in Hl. rewrite Hl.
      apply bind_inv in Hstep
        as [(e & _ & [=])|(fs & evs5 & evs6 & Hfs & Hstep & ->)].
      apply lift_inv in Hfs as [Hfs ->]. symmetry in Hfs.
      apply ret_inv in Hstep as [[= ->] ->].
      apply IH in Hrest as (new & -> & -> & Hnew).
      exists (fs ++ new). split_and!; [by rewrite <-app_assoc|done|].
      intros f. rewrite elem_of_app, Hnew, (file_entries_ok _ _ _ Hfs). split.
      + intros [(n & fc & ?)|(d & i & n & fc & ? & ?)].
        * exists dir, infos, n, fc. split_and!; [by left|done|tauto..].
        * exists d, i, n, fc. split_and!; [by right|tauto..].
      + intros (d & i & n & fc & [->|?]%elem_of_cons & Hi & ?).
        * left. exists n, fc. assert (i = infos) as -> by congruence. done.
        * right. by exists d, i, n, fc. }
  apply Hfold in Hloop as (new & -> & -> & Hnew).
  split; [done|]. intros f. simpl. rewrite Hnew. unfold listed_file.
  split; intros (d & i & n & fc & Hd & ?); exists d, i, n, fc;
    (split; [by apply Hds|done]).
Qed.

Lemma propagates_recursive_get_dirs P depth acc p :
  propagates P (recursive_get_dirs w depth acc p).
Proof.
  revert acc p. induction depth as [|depth IH]; intros acc p; simpl.
  - apply propagates_lift.
  - apply propagates_bind; [apply propagates_mlsd|]. intros infos.
    apply propagates_for_fold. intros s x.
    apply propagates_bind; [apply propagates_lift|]. intros ty.
    case_decide; [apply IH|apply propagates_ret].
Qed.

Lemma propagates_get_remote_files P root :
  propagates P (get_remote_files w root).
Proof.
  apply propagates_bind; [apply propagates_recursive_get_dirs|]. intros ds.
  apply propagates_for_fold. intros s x.
  apply propagates_bind; [apply propagates_mlsd|]. intros infos.
  apply propagates_bind; [apply propagates_lift|]. intros fs.
  apply propagates_ret.
Qed.

Lemma emits_answered_mlsd p facts : emits (answered w) (mlsd w p facts).
Proof.
  intros h. unfold mlsd. destruct (listing w facts p) eqn:Hl;
    repeat constructor; exists p, facts; by rewrite Hl.
Qed.

Lemma emits_recursive_get_dirs depth acc p :
  emits (answered w) (recursive_get_dirs w depth acc p).
Proof.
  revert acc p. induction depth as [|depth IH]; intros acc p; simpl.
  - apply emits_lift.
  - apply emits_bind; [apply emits_answered_mlsd|]. intros infos.
    apply emits_for_fold. intros s x.
    apply emits_bind; [apply emits_lift|]. intros ty.
    case_decide; [apply IH|apply emits_ret].
Qed.

Lemma answered_is_listing ev : answered w ev → is_listing ev.
Proof. intros (p & facts & ->). by eexists _, _, _. Qed.

Lemma emits_get_remote_dirs p : emits is_listing (get_remote_dirs w p).
Proof.
  eapply emits_weaken; [apply answered_is_listing|].
  apply emits_recursive_get_dirs.
Qed.

Lemma propagates_get_remote_dirs P p : propagates P (get_remote_dirs w p).
Proof. apply propagates_recursive_get_dirs. Qed.

Lemma emits_answered_get_remote_files root :
  emits (answered w) (get_remote_files w root).
Proof.
  apply emits_bind; [apply emits_recursive_get_dirs|]. intros ds.
  apply emits_for_fold. intros s x.
  apply emits_bind; [apply emits_answered_mlsd|]. intros infos.
  apply emits_bind; [apply emits_lift|]. intros fs.
  apply emits_ret.
Qed.

Lemma emits_get_remote_files root :
  emits is_listing (get_remote_files w root).
Proof.
  eapply emits_weaken; [apply answered_is_listing|].
  apply emits_answered_get_remote_files.
Qed.

Lemma oblivious_recursive_get_dirs depth acc p :
  oblivious (recursive_get_dirs w depth acc p).
Proof.
  revert acc p. induction depth as [|depth IH]; intros acc p; simpl.
  - apply oblivious_lift.
  - apply oblivious_bind; [apply oblivious_mlsd|]. intros infos.
    apply oblivious_for_fold. intros s x.
    apply oblivious_bind; [apply oblivious_lift|]. intros ty.
    case_decide; [apply IH|apply oblivious_ret].
Qed.

Lemma oblivious_get_remote_files root : oblivious (get_remote_files w root).
Proof.
  apply oblivious_bind; [apply oblivious_recursive_get_dirs|]. intros ds.
  apply oblivious_for_fold. intros s x.
  apply oblivious_bind; [apply oblivious_mlsd|]. intros infos.
  apply oblivious_bind; [apply oblivious_lift|]. intros fs.
  apply oblivious_ret.
Qed.

Lemma fact_some name (fs : gmap string string) k v :
  fs !! k = Some v → fact (name, fs) k = Ok v.
Proof. unfold fact. simpl. by intros ->. Qed.

Lemma recursive_get_dirs_total depth acc p h :
  (∀ d, reachable w p d → length d < length p + depth) →
  (∀ d, reachable w p d → answers w ["type"] d) →
  ∃ ds evs, recursive_get_dirs w depth acc p h = (Ok ds, evs).
Proof.
  revert acc p h. induction depth as [|depth IH]; intros acc p h Hdepth Hans.
  { specialize (Hdepth p (reach_here w p)). lia. }
  simpl. destruct (Hans p (reach_here w p)) as (infos & Hlist & Hfacts).
  rewrite run_bind. unfold mlsd at 1. rewrite Hlist.
  generalize (h ++ [Called (Mlsd p ["type"]) None]) as h'.
  generalize (acc ++ [p]) as acc'.
  assert (∀ l, l ⊆ infos → ∀ acc' h', ∃ ds evs,
    for_fold l
      (λ remote_dirs file_info,
         ty ← lift (fact file_info "type");
         if decide (ty = "dir")
         then recursive_get_dirs w depth remote_dirs (joinpath p file_info.1)
         else mret remote_dirs) acc' h' = (Ok ds, evs)) as Hfold.
  { intros l. induction l as [|[name fs] l IHl]; intros Hsub acc' h'.
    - by exists acc', [].
    - assert ((name, fs) ∈ infos) as Hin by (apply Hsub; by left).
      destruct (Hfacts name fs Hin) as [[ty Hty] _].
      assert (∃ acc1 evs1,
        (ty ← lift (fact (name, fs) "type");
         if decide (ty = "dir")
         then recursive_get_dirs w depth acc' (joinpath p name)
         else mret acc') h' = (Ok acc1, evs1)) as (acc1 & evs1 & Hstep).
      { rewrite run_bind. unfold lift. rewrite (fact_some _ _ _ _ Hty). simpl.
        destruct (decide (ty = "dir")) as [->|Hne].
        - destruct (IH acc' (joinpath p name) (h' ++ [])) as (ds & evs & ->).
          + intros d Hd.
            assert (reachable w p d) as Hd' by (eapply reach_child; eauto).
            apply Hdepth in Hd'. unfold joinpath. rewrite length_app. simpl. lia.
          + intros d Hd. apply Hans. eapply reach_child; eauto.
          + by exists ds, evs.
        - by exists acc', []. }
      destruct (IHl (λ y Hy, Hsub y (list_elem_of_further _ _ _ Hy))
                  acc1 (h' ++ evs1)) as (ds & evs & Hrest).
      exists ds, (evs1 ++ evs). simpl.
      erewrite bind_ok; [|exact Hstep]. by rewrite Hrest. }
  intros acc' h'. destruct (Hfold infos (λ _ H, H) acc' h') as (ds & evs & Hrun).
  exists ds, ([Called (Mlsd p ["type"]) None] ++ evs). by rewrite Hrun.
Qed.

Lemma file_entries_total dir infos :
  (∀ name fs, (name, fs) ∈ infos →
     is_Some (fs !! "type") ∧
     (fs !! "type" = Some "file" →
      Forall (λ k, is_Some (fs !! k)) ["size"; "modify"; "type"])) →
  ∃ files, file_entries dir infos = Ok files.
Proof.
  induction infos as [|[name fs] infos IH]; intros Hfacts; [by exists []|].
  destruct IH as [files Hfiles].
  { intros n f Hin. apply (Hfacts n). by right. }
  destruct (Hfacts name fs) as [[ty Hty] Hfile]; [by left|].
  cbn [file_entries]. rewrite (fact_some _ _ _ _ Hty). simpl.
  destruct (decide (ty = "file")) as [->|Hne]; [|by exists files].
  specialize (Hfile Hty).
  apply Forall_cons in Hfile as [[s Hs] Hfile].
  apply Forall_cons in Hfile as [[m Hm] _].
  rewrite (fact_some _ _ _ _ Hm). simpl.
  rewrite (fact_some _ _ _ _ Hs). simpl.
  rewrite Hfiles. by eexists.
Qed.

(** X3. The enumeration of the remote files returns when the remote
    tree fits the stack, and every directory of it is listed with an
    answer whose entries have a type and, for a file, the facts
    asked for. *)
Lemma get_remote_files_total root h :
  (∀ d, reachable w root d → length d < length root + recursion_limit w) →
  (∀ d, reachable w root d → answers w ["type"] d) →
  (∀ d, reachable w root d → answers w ["size"; "modify"; "type"] d) →
  ∃ files evs, get_remote_files w root h = (Ok files, evs).
Proof.
  intros Hdepth Hans Hfull. unfold get_remote_files.
  destruct (recursive_get_dirs_total (recursion_limit w) [] root h)
    as (ds & evs1 & Hdirs); [done..|].
  fold (get_remote_dirs w root) in Hdirs.
  pose proof (get_remote_dirs_ok _ _ _ _ Hdirs) as [_ Hds].
  assert (∀ d, d ∈ ds → answers w ["size"; "modify"; "type"] d) as Hall.
  { intros d Hd. apply Hfull. by apply Hds. }
  assert (∀ acc h', ∃ files evs,
    for_fold ds
      (λ remote_files dir,
         remote_file_list ← mlsd w dir ["size"; "modify"; "type"];
         files ← lift (file_entries dir remote_file_list);
         mret (remote_files ++ files)) acc h' = (Ok files, evs)) as Hloop.
  { clear Hds Hdirs. induction ds as [|d ds IH]; intros acc h'.
    - by exists acc, [].
    - destruct (Hall d) as (infos & Hlist & Hfacts); [by left|].
      destruct (file_entries_total d infos Hfacts) as [fs Hfs].
      destruct IH with (acc := acc ++ fs)
                       (h' := h' ++ [fully_listed d]) as (files & evs & Hrest).
      { intros d' Hd'. apply Hall. by right. }
      exists files, ([fully_listed d] ++ evs). simpl.
      erewrite bind_ok; [by rewrite Hrest|].
      rewrite run_bind. unfold mlsd at 1. rewrite Hlist.
      rewrite run_bind. unfold lift at 1. by rewrite Hfs. }
  destruct (Hloop [] (h ++ evs1)) as (files & evs & Hrun).
  exists files, (evs1 ++ evs). erewrite bind_ok; [|exact Hdirs].
  by rewrite Hrun.
Qed.
End Enumeration.

(** ** Paths *)

Lemma relative_to_app base rel : relative_to (base ++ rel) base = Some rel.
Proof. induction base as [|b base IH]; simpl; [done|]. by rewrite decide_True. Qed.

Lemma relative_to_Some p base rel :
  relative_to p base = Some rel ↔ p = base ++ rel.
Proof.
  split; [|intros ->; apply relative_to_app].
  revert p. induction base as [|b base IH]; intros p; simpl.
  - by intros [= ->].
  - destruct p as [|a p]; [done|]. case_decide; [|done].
    intros ->%IH. by subst.
Qed.

Lemma relative_to_nil p : relative_to p [] = Some p.
Proof. done. Qed.

Lemma list_of_ok {A B} (f : A → outcome B) (g : A → B) l :
  (∀ x, x ∈ l → f x = Ok (g x)) → list_of f l = Ok (g <$> l).
Proof.
  induction l as [|x l IH]; intros Hf; [done|]. simpl.
  rewrite Hf by left. simpl. rewrite IH; [done|]. intros y Hy. apply Hf. by right.
Qed.

Lemma list_of_inv {A B} (f : A → outcome B) l ys :
  list_of f l = Ok ys → Forall2 (λ x y, f x = Ok y) l ys.
Proof.
  revert ys. induction l as [|x l IH]; intros ys Hrun; simplify_eq/=; [constructor|].
  apply outcome_bind_inv in Hrun as (y & Hy & Hrun).
  apply outcome_bind_inv in Hrun as (ys' & Hys & [= <-]).
  constructor; [done|by apply IH].
Qed.

(** ** The local tree *)

Lemma node_ind' (P : node → Prop) :
  (∀ name mtime size, P (file_node name mtime size)) →
  (∀ name children, Forall P children → P (dir_node name children)) →
  ∀ n, P n.
Proof.
  intros Hfile Hdir. fix IH 1. intros [name mtime size|name children].
  - apply Hfile.
  - apply Hdir. induction children as [|c cs IHcs]; constructor; [apply IH|apply IHcs].
Qed.

Lemma list_bind_assoc {A B C} (f : A → list B) (g : B → list C) (l : list A) :
  (l ≫= f) ≫= g = l ≫= λ x, f x ≫= g.
Proof.
  induction l as [|x l IH]; [done|]. by rewrite !bind_cons, bind_app, IH.
Qed.

Lemma is_dir_in_nil rel : ¬ is_dir_in rel [].
Proof. destruct rel; simpl; [tauto|]. by intros (cs & ?%elem_of_nil & _). Qed.

Lemma is_dir_in_cons_nonempty rel children : is_dir_in rel children → rel ≠ [].
Proof. by destruct rel. Qed.

Lemma elem_of_dirnames d children :
  d ∈ dirnames children ↔ ∃ cs, dir_node d cs ∈ children.
Proof.
  unfold dirnames. rewrite list_elem_of_bind. split.
  - intros ([?|d' cs] & Hd & Hin); [by apply elem_of_nil in Hd|].
    apply list_elem_of_singleton in Hd as ->. by exists cs.
  - intros [cs Hin]. exists (dir_node d cs). split; [by left|done].
Qed.

Lemma dirnames_names d children :
  d ∈ dirnames children → d ∈ node_name <$> children.
Proof.
  intros [cs Hin]%elem_of_dirnames. apply list_elem_of_fmap.
  by exists (dir_node d cs).
Qed.

Lemma NoDup_dirnames children :
  NoDup (node_name <$> children) → NoDup (dirnames children).
Proof.
  induction children as [|c cs IH]; [constructor|].
  rewrite fmap_cons, NoDup_cons. intros [Hc Hcs].
  unfold dirnames. rewrite bind_cons. fold (dirnames cs).
  destruct c as [|d cs']; simpl; [by apply IH|].
  apply NoDup_cons. split; [|by apply IH].
  intros Hd. by apply Hc, dirnames_names.
Qed.

Lemma NoDup_fmap_eq {A B} (f : A → B) (l : list A) x y :
  NoDup (f <$> l) → x ∈ l → y ∈ l → f x = f y → x = y.
Proof.
  induction l as [|a l IH]; [by intros _ ?%elem_of_nil|].
  rewrite fmap_cons, NoDup_cons. intros [Ha Hl].
  intros [->|Hx]%elem_of_cons [->|Hy]%elem_of_cons Heq; [done| | |by apply IH].
  - destruct Ha. rewrite Heq. apply list_elem_of_fmap. by exists y.
  - destruct Ha. rewrite <-Heq. apply list_elem_of_fmap. by exists x.
Qed.

Lemma walk_dirs_dir root name children :
  walk_dirs root (dir_node name children) =
  (joinpath root <$> dirnames children) ++
  (children ≫= λ c, walk_dirs (joinpath root (node_name c)) c).
Proof.
  unfold walk_dirs. cbn [walk]. by rewrite bind_cons, list_bind_assoc.
Qed.

Lemma elem_of_walk_dirs n : ∀ root p,
  p ∈ walk_dirs root n ↔ ∃ rel, p = root ++ rel ∧ is_dir_in rel (node_children n).
Proof.
  induction n as [name mtime size|name children IH] using node_ind'; intros root p.
  - split; [by intros ?%elem_of_nil|]. by intros (rel & _ & ?%is_dir_in_nil).
  - rewrite walk_dirs_dir, elem_of_app, list_elem_of_fmap, list_elem_of_bind.
    rewrite Forall_forall in IH. simpl. split.
    + intros [(d & -> & [cs Hd]%elem_of_dirnames)|(c & Hp & Hc)].
      * exists [d]. split; [done|]. exists cs. split; [done|by left].
      * apply (IH c Hc) in Hp as (rel & -> & Hrel).
        destruct c as [|d cs]; [by apply is_dir_in_nil in Hrel|].
        exists (d :: rel). unfold joinpath. rewrite <-app_assoc.
        split; [done|]. exists cs. split; [done|by right].
    + intros ([|d rel] & -> & Hrel); [done|].
      destruct Hrel as (cs & Hd & [->|Hrel]).
      * left. exists d. split; [done|]. apply elem_of_dirnames. by exists cs.
      * right. exists (dir_node d cs). split; [|done]. apply (IH _ Hd).
        exists rel. unfold joinpath. by rewrite <-app_assoc.
Qed.

Lemma NoDup_walk_dirs n : ∀ root,
  well_formed (node_children n) → NoDup (walk_dirs root n).
Proof.
  induction n as [name mtime size|name children IH] using node_ind'; intros root Hwf.
  { constructor. }
  rewrite Forall_forall in IH. simpl in Hwf. destruct Hwf as [cs Hnames Hsub].
  rewrite walk_dirs_dir. apply NoDup_app. split_and!.
  - apply NoDup_fmap_2; [apply _|]. by apply NoDup_dirnames.
  - intros p (d & -> & _)%list_elem_of_fmap (c & Hp & Hc)%list_elem_of_bind.
    apply elem_of_walk_dirs in Hp as (rel & Heq & Hrel%is_dir_in_cons_nonempty).
    unfold joinpath in Heq. rewrite <-app_assoc in Heq.
    apply app_inv_head in Heq. simpl in Heq. by simplify_eq.
  - apply NoDup_bind.
    + intros c1 c2 p Hc1 Hc2 (rel1 & -> & _)%elem_of_walk_dirs
        (rel2 & Heq & _)%elem_of_walk_dirs.
      unfold joinpath in Heq. rewrite <-!app_assoc in Heq.
      apply app_inv_head in Heq. simpl in Heq.
      eapply (NoDup_fmap_eq node_name); [done..|]. by simplify_eq.
    + intros c Hc. apply (IH c Hc). destruct c as [|d cs']; simpl.
      * constructor; [constructor|]. by intros ?? ?%elem_of_nil.
      * by eapply Hsub.
    + by eapply NoDup_fmap_1.
Qed.

Lemma is_file_in_nil rel info : ¬ is_file_in rel info [].
Proof.
  destruct rel as [|f [|d rel]]; simpl; [tauto|by intros ?%elem_of_nil|].
  by intros (cs & ?%elem_of_nil & _).
Qed.

Lemma elem_of_filenames f info children :
  (f, info) ∈ filenames children ↔
  file_node f (info_modify info) (info_size info) ∈ children.
Proof.
  unfold filenames. rewrite list_elem_of_bind. split.
  - intros ([f' t s|] & Hf & Hin); [|by apply elem_of_nil in Hf].
    by apply list_elem_of_singleton in Hf as [= -> ->].
  - intros Hin. eexists. split; [|exact Hin]. destruct info. by left.
Qed.

Lemma walk_files_dir root name children :
  walk_files root (dir_node name children) =
  ((λ '(file, info), (joinpath root file, info)) <$> filenames children) ++
  (children ≫= λ c, walk_files (joinpath root (node_name c)) c).
Proof.
  unfold walk_files. cbn [walk]. by rewrite bind_cons, list_bind_assoc.
Qed.

Lemma elem_of_walk_files n : ∀ root p info,
  (p, info) ∈ walk_files root n ↔
  ∃ rel, p = root ++ rel ∧ is_file_in rel info (node_children n).
Proof.
  induction n as [name mtime size|name children IH] using node_ind';
    intros root p info.
  - split; [by intros ?%elem_of_nil|]. by intros (rel & _ & ?%is_file_in_nil).
  - rewrite walk_files_dir, elem_of_app, list_elem_of_fmap, list_elem_of_bind.
    rewrite Forall_forall in IH. simpl. split.
    + intros [([f i] & [= -> ->] & Hf%elem_of_filenames)|(c & Hp & Hc)].
      * by exists [f].
      * apply (IH c Hc) in Hp as (rel & -> & Hrel).
        destruct c as [|d cs]; [by apply is_file_in_nil in Hrel|].
        exists (d :: rel). unfold joinpath. rewrite <-app_assoc.
        split; [done|]. destruct rel as [|x rel]; [done|]. by exists cs.
    + intros ([|x [|y rel]] & -> & Hrel); [done| |].
      * left. exists (x, info). split; [done|]. by apply elem_of_filenames.
      * destruct Hrel as (cs & Hd & Hrel). right.
        exists (dir_node x cs). split; [|done]. apply (IH _ Hd).
        exists (y :: rel). unfold joinpath. by rewrite <-app_assoc.
Qed.

Lemma walk_root n : ∀ root r dirs files,
  (r, dirs, files) ∈ walk root n → ∃ rel, r = root ++ rel.
Proof.
  induction n as [name mtime size|name children IH] using node_ind';
    intros root r dirs files Hin.
  { by apply elem_of_nil in Hin. }
  rewrite Forall_forall in IH. cbn [walk] in Hin.
  apply elem_of_cons in Hin as [[= -> _ _]|(c & Hin & Hc)%list_elem_of_bind].
  - exists []. by rewrite app_nil_r.
  - apply (IH c Hc) in Hin as [rel ->]. exists (node_name c :: rel).
    unfold joinpath. by rewrite <-app_assoc.
Qed.

Lemma walk_files_under root n p info :
  (p, info) ∈ walk_files root n → ∃ rel, p = root ++ rel.
Proof.
  intros ([[r dirs] files] & Hp & [rel ->]%walk_root)%list_elem_of_bind.
  apply list_elem_of_fmap in Hp as ([file info'] & [= -> _] & _).
  exists (rel ++ [file]). unfold joinpath. by rewrite <-app_assoc.
Qed.

(** ** The dictionary of local files *)

Lemma keys_dict_set k v d :
  keys (dict_set k v d) = if decide (k ∈ keys d) then keys d else keys d ++ [k].
Proof.
  unfold keys. induction d as [|[k' v'] d IH].
  - case_decide as Hin; [by apply elem_of_nil in Hin|done].
  - cbn [dict_set]. destruct (decide (k = k')) as [->|Hne].
    + rewrite decide_True; [done|]. by left.
    + rewrite !fmap_cons, IH. cbn [fst]. destruct (decide (k ∈ d.*1)) as [Hin|Hnin].
      * rewrite decide_True; [done|]. by right.
      * rewrite decide_False; [done|]. by intros [?|?]%elem_of_cons.
Qed.

Lemma elem_of_keys_dict_set x k v d :
  x ∈ keys (dict_set k v d) ↔ x = k ∨ x ∈ keys d.
Proof.
  rewrite keys_dict_set. case_decide.
  - split; [by right|]. by intros [->|?].
  - rewrite elem_of_app, list_elem_of_singleton. tauto.
Qed.

Lemma NoDup_keys_dict_set k v d : NoDup (keys d) → NoDup (keys (dict_set k v d)).
Proof.
  intros Hd. rewrite keys_dict_set. case_decide; [done|].
  apply NoDup_app. split_and!; [done| |apply NoDup_singleton].
  by intros x Hx ->%list_elem_of_singleton.
Qed.

Lemma elem_of_dict_set k v d x y :
  (x, y) ∈ dict_set k v d → (x = k ∧ y = v) ∨ (x, y) ∈ d.
Proof.
  induction d as [|[k' v'] d IH]; simpl.
  - intros [= -> ->]%list_elem_of_singleton. by left.
  - destruct (decide (k = k')) as [->|Hne].
    + intros [[= -> ->]|?]%elem_of_cons; [by left|]. right. by right.
    + intros [[= -> ->]|Hin]%elem_of_cons; [right; by left|].
      apply IH in Hin as [?|?]; [by left|]. right. by right.
Qed.

Lemma elem_of_keys_dict_of x acc kvs :
  x ∈ keys (dict_of acc kvs) ↔ x ∈ keys acc ∨ x ∈ kvs.*1.
Proof.
  unfold dict_of. revert acc. induction kvs as [|[k v] kvs IH]; intros acc; simpl.
  - split; [by left|]. by intros [?|?%elem_of_nil].
  - rewrite IH, elem_of_keys_dict_set, elem_of_cons. tauto.
Qed.

Lemma NoDup_keys_dict_of acc kvs : NoDup (keys acc) → NoDup (keys (dict_of acc kvs)).
Proof.
  unfold dict_of. revert acc. induction kvs as [|[k v] kvs IH]; intros acc Hacc; simpl.
  - done.
  - by apply IH, NoDup_keys_dict_set.
Qed.

Lemma elem_of_dict_of x y acc kvs :
  (x, y) ∈ dict_of acc kvs → (x, y) ∈ acc ∨ (x, y) ∈ kvs.
Proof.
  unfold dict_of. revert acc. induction kvs as [|[k v] kvs IH]; intros acc; simpl.
  - by left.
  - intros [[[-> ->]|?]%elem_of_dict_set|?]%IH.
    + right. by left.
    + by left.
    + right. by right.
Qed.

Section Local.
Context (w : world).

Lemma get_local_files_flat :
  get_local_files w =
  dict_of [] (walk_files local_site_path (dir_node "output" (local_site w))).
Proof.
  unfold get_local_files, walk_output, walk_files, dict_of.
  generalize (walk local_site_path (dir_node "output" (local_site w))).
  generalize (@nil (path * local_info)).
  intros acc items. revert acc.
  induction items as [|[[root dirs] files] items IH]; intros acc; [done|].
  rewrite bind_cons, foldl_app. simpl. rewrite <-IH. f_equal.
  clear. revert acc. induction files as [|[file info] files IH]; intros acc; [done|].
  simpl. by rewrite IH.
Qed.

Lemma NoDup_get_local_files : NoDup (keys (get_local_files w)).
Proof. rewrite get_local_files_flat. apply NoDup_keys_dict_of. constructor. Qed.

Lemma elem_of_keys_get_local_files p :
  p ∈ keys (get_local_files w) ↔
  p ∈ (walk_files local_site_path (dir_node "output" (local_site w))).*1.
Proof.
  rewrite get_local_files_flat, elem_of_keys_dict_of.
  split; [|by right]. by intros [?%elem_of_nil|?].
Qed.

Lemma elem_of_keys_get_local_files_tree p :
  p ∈ keys (get_local_files w) ↔
  ∃ rel info, p = local_site_path ++ rel ∧ is_file_in rel info (local_site w).
Proof.
  rewrite elem_of_keys_get_local_files, list_elem_of_fmap. split.
  - intros ([p' info] & -> & (rel & -> & Hrel)%elem_of_walk_files).
    by exists rel, info.
  - intros (rel & info & -> & Hrel). exists (local_site_path ++ rel, info).
    split; [done|]. apply elem_of_walk_files. by exists rel.
Qed.

Lemma get_local_files_under p :
  p ∈ keys (get_local_files w) → ∃ rel, p = local_site_path ++ rel.
Proof.
  rewrite elem_of_keys_get_local_files.
  intros ([p' info] & -> & Hin)%list_elem_of_fmap. by eapply walk_files_under.
Qed.

Lemma get_local_dirs_ok :
  ∃ ds, get_local_dirs w = Ok ds ∧
        (∀ d, d ∈ ds ↔ is_dir_in d (local_site w)) ∧
        (well_formed (local_site w) → NoDup ds).
Proof.
  unfold get_local_dirs, walk_output.
  fold (walk_dirs local_site_path (dir_node "output" (local_site w))).
  set (l := walk_dirs local_site_path (dir_node "output" (local_site w))).
  assert (∀ p, p ∈ l ↔ ∃ rel, p = ["output"] ++ rel ∧ is_dir_in rel (local_site w))
    as Hl by apply elem_of_walk_dirs.
  exists (drop 1 <$> l). split_and!.
  - apply list_of_ok. intros p (rel & -> & _)%Hl. unfold rel_to.
    by rewrite relative_to_app.
  - intros d. rewrite list_elem_of_fmap. split.
    + by intros (p & -> & (rel & -> & ?)%Hl).
    + intros Hd. exists ("output" :: d). split; [done|]. apply Hl. by exists d.
  - intros Hwf. apply NoDup_fmap_2_strong; [|by apply NoDup_walk_dirs].
    intros p q (rel1 & -> & _)%Hl (rel2 & -> & _)%Hl Heq.
    simpl in Heq. rewrite !drop_0 in Heq. by subst.
Qed.
End Local.

(** ** Change detection *)

Lemma first_at_unique rel remote_files r r' :
  first_at rel remote_files r → first_at rel remote_files r' → r = r'.
Proof.
  intros (pre & post & -> & Hr & Hpre) (pre' & post' & Heq & Hr' & Hpre').
  revert pre' Heq Hpre'. induction pre as [|x pre IH]; intros pre' Heq Hpre'.
  - destruct pre' as [|y pre']; simplify_eq/=; [done|].
    destruct (Hpre' y); [by left|done].
  - destruct pre' as [|y pre']; simplify_eq/=.
    + destruct (Hpre r'); [by left|done].
    + apply (IH (λ z Hz, Hpre z (list_elem_of_further _ _ _ Hz)) pre'); [done|].
      intros z Hz. apply Hpre'. by right.
Qed.

Lemma next_match_spec remote_files rel :
  (next_match remote_files rel = Ok None ∧ ∀ r, r ∈ remote_files → r.1.1 ≠ rel) ∨
  (∃ r, next_match remote_files rel = Ok (Some r) ∧ first_at rel remote_files r).
Proof.
  induction remote_files as [|file rest IH]; simpl.
  - left. split; [done|]. by intros r ?%elem_of_nil.
  - destruct (decide (file.1.1 = rel)) as [Heq|Hne].
    + right. exists file. split; [done|]. exists [], rest.
      split_and!; [done..|]. by intros x ?%elem_of_nil.
    + destruct IH as [[-> Hnone]|(r & -> & pre & post & -> & Hr & Hpre)].
      * left. split; [done|]. by intros r [->|?]%elem_of_cons; [|apply Hnone].
      * right. exists r. split; [done|]. exists (file :: pre), post.
        split_and!; [done..|]. by intros x [->|?]%elem_of_cons; [|apply Hpre].
Qed.

Section Changes.
Context (w : world).

Lemma find_changes_ok remote_files items acc cs :
  find_changes w remote_files items acc = Ok cs →
  ∃ new, cs = acc ++ new ∧
    ∀ f, f ∈ new ↔
         ∃ info rel, (f, info) ∈ items ∧
           relative_to f local_site_path = Some rel ∧
           selected w remote_files rel info.
Proof.
  revert acc cs. induction items as [|[file info] items IH]; intros acc cs Hrun.
  { simplify_eq/=. exists []. rewrite app_nil_r. split; [done|].
    intros f. split; [by intros ?%elem_of_nil|].
    by intros (? & ? & ?%elem_of_nil & _). }
  cbn [find_changes] in Hrun.
  apply outcome_bind_inv in Hrun as (rel & Hrel%or_raise_ok & Hrun).
  apply outcome_bind_inv in Hrun as (found & Hfound & Hrun).
  assert (∀ (new : list path) (b : Prop), (b ↔ selected w remote_files rel info) →
    (∀ f, f ∈ new ↔ ∃ info' rel', (f, info') ∈ items ∧
           relative_to f local_site_path = Some rel' ∧
           selected w remote_files rel' info') →
    ∀ f, (b ∧ f = file) ∨ f ∈ new ↔
         ∃ info' rel', (f, info') ∈ (file, info) :: items ∧
           relative_to f local_site_path = Some rel' ∧
           selected w remote_files rel' info') as Hstep.
  { intros new b Hb Hnew f. rewrite Hnew. split.
    - intros [[Hsel ->]|(i & r & ? & ?)].
      + exists info, rel. split_and!; [by left|done|by apply Hb].
      + exists i, r. split; [by right|done].
    - intros (i & r & [[= -> ->]|?]%elem_of_cons & Hr & Hsel).
      + left. split; [|done]. apply Hb. by simplify_eq.
      + right. by exists i, r. }
  destruct (next_match_spec remote_files rel)
    as [[Hnm Hnone]|(r & Hnm & Hfirst)]; rewrite Hnm in Hfound; simplify_eq/=.
  - apply IH in Hrun as (new & -> & Hnew).
    exists (file :: new). rewrite <-app_assoc. split; [done|].
    intros f. rewrite elem_of_cons, <-(Hstep new True); [tauto| |done].
    split; [intros _; by left|done].
  - apply outcome_bind_inv in Hrun as (n & Hn%or_raise_ok & Hrun).
    destruct (decide (n < info_size info)%Z) as [Hlt|Hge].
    + apply IH in Hrun as (new & -> & Hnew).
      exists (file :: new). rewrite <-app_assoc. split; [done|].
      intros f. rewrite elem_of_cons, <-(Hstep new True); [tauto| |done].
      split; [intros _; right; by exists r, n|done].
    + apply IH in Hrun as (new & -> & Hnew).
      exists new. split; [done|].
      intros f. rewrite <-(Hstep new False); [tauto| |done].
      split; [done|]. intros [Hnone|(r' & n' & Hfirst' & Hn' & Hlt)].
      * destruct Hfirst as (pre & post & -> & Hr & _).
        apply (Hnone r); [|done]. apply elem_of_app. right. by left.
      * assert (r' = r) as -> by by eapply first_at_unique.
        by simplify_eq.
Qed.

Lemma find_changes_total remote_files items acc :
  (∀ f, f ∈ keys items → ∃ rel, f = local_site_path ++ rel) →
  (∀ r, r ∈ remote_files → is_Some (int w r.2)) →
  ∃ cs, find_changes w remote_files items acc = Ok cs.
Proof.
  intros Hkeys Hint. revert acc Hkeys.
  induction items as [|[file info] items IH]; intros acc Hkeys; [by exists acc|].
  cbn [find_changes].
  destruct (Hkeys file) as [rel ->]; [by left|].
  unfold rel_to. rewrite relative_to_app. simpl.
  assert (∀ f, f ∈ keys items → ∃ rel, f = local_site_path ++ rel) as Hkeys'.
  { intros f Hf. apply Hkeys. by right. }
  destruct (next_match_spec remote_files rel)
    as [[-> _]|(r & -> & pre & post & -> & _)]; simpl; [by apply IH|].
  destruct (Hint r) as [n ->]; [apply elem_of_app; right; by left|]. simpl.
  case_decide; by apply IH.
Qed.
End Changes.

(** ** Deletion *)

Lemma set_of_ok {A} (f : A → outcome path) xs s :
  set_of f xs = Ok s → ∀ p, p ∈ s ↔ ∃ x, x ∈ xs ∧ f x = Ok p.
Proof.
  revert s. induction xs as [|x xs IH]; intros s Hrun p.
  - simplify_eq/=. split; [by intros ?%not_elem_of_empty|].
    by intros (? & ?%elem_of_nil & _).
  - simpl in Hrun.
    apply outcome_bind_inv in Hrun as (q & Hq & Hrun).
    apply outcome_bind_inv in Hrun as (s' & Hs' & [= <-]).
    rewrite elem_of_union, elem_of_singleton, (IH _ Hs'). split.
    + intros [->|(y & ? & ?)]; [exists x|exists y]; split; try done; by constructor.
    + intros (y & [->|?]%elem_of_cons & Hy); [left; congruence|right; by exists y].
Qed.

Lemma set_of_total {A} (f : A → outcome path) xs :
  (∀ x, x ∈ xs → ∃ p, f x = Ok p) → ∃ s, set_of f xs = Ok s.
Proof.
  induction xs as [|x xs IH]; intros Hf; [by exists ∅|].
  destruct (Hf x) as [p Hp]; [by left|].
  destruct IH as [s Hs]; [intros y Hy; apply Hf; by right|].
  exists ({[p]} ∪ s). simpl. rewrite Hp. simpl. by rewrite Hs.
Qed.

Lemma files_to_delete_ok remote_files local_files site :
  (∀ f, f ∈ keys local_files → ∃ rel, f = site ++ rel) →
  ∃ s, files_to_delete remote_files local_files site = Ok s ∧
       ∀ rel, rel ∈ s ↔ (∃ r, r ∈ remote_files ∧ r.1.1 = rel) ∧
                        site ++ rel ∉ keys local_files.
Proof.
  intros Hunder. unfold files_to_delete.
  destruct (set_of_total (rel_to site) (keys local_files)) as [ls Hls].
  { intros f [rel ->]%Hunder. exists rel. unfold rel_to. by rewrite relative_to_app. }
  destruct (set_of_total (λ f : remote_entry, rel_to [] f.1.1) remote_files)
    as [rs Hrs].
  { intros r _. by exists r.1.1. }
  exists (rs ∖ ls). rewrite Hls. simpl. rewrite Hrs. simpl. split; [done|].
  intros rel. rewrite elem_of_difference.
  rewrite (set_of_ok _ _ _ Hrs), (set_of_ok _ _ _ Hls). split.
  - intros [(r & Hr & [= <-]) Hnot]. split; [by exists r|].
    intros Hin. apply Hnot. exists (site ++ r.1.1). split; [done|].
    unfold rel_to. by rewrite relative_to_app.
  - intros [(r & Hr & <-) Hnot]. split; [by exists r|].
    intros (f & Hf & Hrel). apply Hnot.
    unfold rel_to in Hrel. apply or_raise_ok, relative_to_Some in Hrel. by subst.
Qed.

Section Deletion.
Context (w : world).

Lemma delete_one_run ftp_path rel h :
  let p := Path w ftp_path ++ rel in
  delete_one w ftp_path rel h =
  (Ok (), [Called (Dele p) (reply w h (Dele p));
           Printed (match reply w h (Dele p) with
                    | None => MsgDeleted p
                    | Some e => delete_failure_msg p e
                    end)]).
Proof.
  unfold delete_one, try_except. rewrite run_bind. unfold ftp.
  destruct (reply w h (Dele (Path w ftp_path ++ rel))) as [e|]; [|done].
  by destruct e.
Qed.

Lemma delete_loop_run ftp_path rels h :
  ∃ evs, for_each rels (delete_one w ftp_path) h = (Ok (), evs) ∧
         deletion_log w ftp_path rels evs.
Proof.
  revert h. induction rels as [|rel rels IH]; intros h.
  - exists []. split; [done|constructor].
  - simpl. rewrite run_bind, delete_one_run.
    destruct (IH (h ++ [Called (Dele (Path w ftp_path ++ rel))
                         (reply w h (Dele (Path w ftp_path ++ rel)));
                       Printed (match reply w h (Dele (Path w ftp_path ++ rel)) with
                                | None => MsgDeleted (Path w ftp_path ++ rel)
                                | Some e => delete_failure_msg (Path w ftp_path ++ rel) e
                                end)])) as (evs & -> & Hlog).
    eexists. split; [done|]. by constructor.
Qed.

Lemma deletion_log_deleted ftp_path rels evs :
  deletion_log w ftp_path rels evs →
  deleted evs = (Path w ftp_path ++.) <$> rels.
Proof. induction 1; [done|]. simpl. by f_equal. Qed.


Lemma deletion_log_events ftp_path rels evs :
  deletion_log w ftp_path rels evs →
  Forall (λ ev, match ev with
                | Called (Dele _) _ => True
                | Printed (MsgDeleted _) => True
                | Printed (MsgDeleteFailed _ _) => True
                | Printed (MsgDeleteUnexpected _ _) => True
                | _ => False
                end) evs.
Proof.
  induction 1 as [|rel rels r evs Hlog IH]; [constructor|].
  constructor; [done|]. constructor; [|done].
  destruct r as [[]|]; done.
Qed.
End Deletion.

Lemma omap_none {A B} (f : A → option B) l :
  Forall (λ x, f x = None) l → omap f l = [].
Proof. induction 1 as [|x l Hx _ IH]; [done|]. simpl. by rewrite Hx. Qed.

Section Engine.
Context (w : world).

Lemma delete_engine_run remote_files local_files site ftp_path h :
  (∀ f, f ∈ keys local_files → ∃ rel, f = site ++ rel) →
  ∃ s body,
    files_to_delete remote_files local_files site = Ok s ∧
    deletion_log w ftp_path (elements s) body ∧
    delete_remote_files_not_in_local w remote_files local_files site ftp_path h =
      (Ok (), (if decide (s = ∅) then Printed MsgNothingToDelete
               else Printed (MsgDeleting (size s))) :: body).
Proof.
  intros Hunder.
  destruct (files_to_delete_ok remote_files local_files site Hunder) as (s & Hs & _).
  unfold delete_remote_files_not_in_local. rewrite run_bind. unfold lift at 1.
  rewrite Hs. exists s. destruct (decide (s = ∅)) as [->|Hne].
  - exists []. rewrite elements_empty. split_and!; [done|constructor|done].
  - destruct (delete_loop_run w ftp_path (elements s)
                ((h ++ []) ++ [Printed (MsgDeleting (size s))]))
      as (body & Hrun & Hlog).
    exists body. split_and!; [done..|].
    rewrite run_bind. unfold print at 1. by rewrite Hrun.
Qed.

(** ** Directory mirroring *)

Lemma reachable_under p d : reachable w p d → ∃ rel, d = p ++ rel.
Proof.
  induction 1 as [p|p infos name facts d _ _ _ _ [rel ->]].
  - exists []. by rewrite app_nil_r.
  - exists (name :: rel). unfold joinpath. by rewrite <-app_assoc.
Qed.

Lemma mkd_loop_run (remote_dirs local_dirs : list path) h r evs :
  for_each local_dirs
    (λ d, if decide (d ∈ remote_dirs) then mret () else ftp w (Mkd d)) h = (r, evs) →
  Forall is_mkd evs ∧
  made_dirs evs `prefix_of` filter (λ d, d ∉ remote_dirs) local_dirs ∧
  (r = Ok () → made_dirs evs = filter (λ d, d ∉ remote_dirs) local_dirs).
Proof.
  revert h r evs. induction local_dirs as [|d ds IH]; intros h r evs Hrun.
  { simpl in Hrun. apply ret_inv in Hrun as [-> ->].
    split_and!; [constructor|apply prefix_nil|done]. }
  simpl in Hrun. rewrite filter_cons.
  apply bind_inv in Hrun as [(e & Hd & ->)|([] & evs1 & evs2 & Hd & Hrest & ->)].
  - destruct (decide (d ∈ remote_dirs)) as [Hin|Hnin].
    { by apply ret_inv in Hd as [[=] _]. }
    apply ftp_inv in Hd as [-> _]. rewrite decide_True by done.
    split_and!; [|simpl; apply prefix_cons, prefix_nil|done].
    repeat constructor. by eexists _, _.
  - apply IH in Hrest as (Hmkd & Hpre & Hok).
    unfold made_dirs. rewrite omap_app. fold (made_dirs evs1) (made_dirs evs2).
    destruct (decide (d ∈ remote_dirs)) as [Hin|Hnin].
    + apply ret_inv in Hd as [_ ->]. rewrite decide_False by tauto.
      by split_and!.
    + apply ftp_inv in Hd as [-> _]. rewrite decide_True by done.
      split_and!.
      * constructor; [by eexists _, _|done].
      * simpl. by apply prefix_cons.
      * intros Hr. simpl. by rewrite Hok.
Qed.

Lemma made_dirs_listing evs : Forall is_listing evs → made_dirs evs = [].
Proof.
  intros Hl. apply omap_none. eapply Forall_impl; [exact Hl|].
  by intros ev (p & facts & r & ->).
Qed.

Lemma mirror_directories_run ftp_path h r evs :
  mirror_directories w ftp_path h = (r, evs) →
  Forall mirror_event evs ∧
  ∃ local_dirs, get_local_dirs w = Ok local_dirs ∧
    ((r ≠ Ok () ∧ made_dirs evs = []) ∨
     ∃ remote_dirs : list path,
       (∀ rel, rel ∈ remote_dirs ↔
               reachable w (Path w ftp_path) (Path w ftp_path ++ rel)) ∧
       made_dirs evs `prefix_of` filter (λ d, d ∉ remote_dirs) local_dirs ∧
       (r = Ok () → made_dirs evs = filter (λ d, d ∉ remote_dirs) local_dirs)).
Proof.
  intros Hrun. destruct (get_local_dirs_ok w) as (lds & Hlds & _).
  unfold mirror_directories in Hrun. rewrite Hlds in Hrun.
  apply bind_inv in Hrun as [(e & [[=] _]%print_inv & _)
                            |([] & evs1 & evs2 & [_ ->]%print_inv & Hrun & ->)].
  apply bind_inv in Hrun as [(e & [[=] _]%lift_inv & _)
                            |(lds' & evs3 & evs4 & [[= ->] ->]%lift_inv & Hrun & ->)].
  apply bind_inv in Hrun as [(e & Hdirs & ->)|(dirs & evs5 & evs6 & Hdirs & Hrun & ->)].
  { pose proof (emits_get_remote_dirs w (Path w ftp_path)
                  ((h ++ [Printed MsgMirroring]) ++ [])) as Hem.
    rewrite Hdirs in Hem. simpl in Hem.
    split.
    - constructor; [by left|]. simpl.
      eapply Forall_impl; [exact Hem|]. intros ev ?. right. by left.
    - exists lds. split; [done|]. left. split; [done|]. simpl.
      by apply made_dirs_listing. }
  pose proof (emits_get_remote_dirs w (Path w ftp_path)
                ((h ++ [Printed MsgMirroring]) ++ [])) as Hem.
  rewrite Hdirs in Hem. simpl in Hem.
  apply get_remote_dirs_ok in Hdirs as [_ Hreach].
  assert (list_of (rel_to (Path w ftp_path)) dirs =
          Ok (drop (length (Path w ftp_path)) <$> dirs)) as Hrel.
  { apply list_of_ok. intros d [rel ->]%Hreach%reachable_under.
    unfold rel_to. rewrite relative_to_app. by rewrite drop_app_length. }
  rewrite Hrel in Hrun.
  apply bind_inv in Hrun as [(e & [[=] _]%lift_inv & _)
                            |(rds & evs7 & evs8 & [[= ->] ->]%lift_inv & Hrun & ->)].
  apply mkd_loop_run in Hrun as (Hmkd & Hpre & Hok).
  split.
  - constructor; [by left|]. simpl. apply Forall_app. split.
    + eapply Forall_impl; [exact Hem|]. intros ev ?. right. by left.
    + eapply Forall_impl; [exact Hmkd|]. intros ev ?. right. by right.
  - exists lds. split; [done|]. right.
    exists (drop (length (Path w ftp_path)) <$> dirs).
    assert (made_dirs ([Printed MsgMirroring] ++ [] ++ evs5 ++ [] ++ evs8) =
            made_dirs evs8) as ->.
    { simpl. unfold made_dirs at 1. rewrite omap_app.
      fold (made_dirs evs5) (made_dirs evs8). by rewrite made_dirs_listing. }
    split_and!; [|done..].
    intros rel. rewrite list_elem_of_fmap. split.
    + intros (d & -> & Hd%Hreach).
      destruct (reachable_under _ _ Hd) as [rel ->].
      by rewrite drop_app_length.
    + intros Hd. exists (Path w ftp_path ++ rel).
      split; [by rewrite drop_app_length|by apply Hreach].
Qed.
End Engine.

Lemma bind_lift_ok {A B} (a : A) (f : A → M B) h : (lift (Ok a) ≫= f) h = f a h.
Proof. rewrite run_bind. simpl. rewrite app_nil_r. by destruct (f a h). Qed.

Lemma bind_lift_raise {A B} e (f : A → M B) h :
  (lift (Raise e) ≫= f) h = (Raise e, []).
Proof. done. Qed.

Lemma session_log_app_l w ftp_path l evs :
  Forall quiet l → session_log w ftp_path evs → session_log w ftp_path (l ++ evs).
Proof.
  intros Hl [Hq|(rf & pre & hD & evsD & x & post & Hrf & Hpre & Hpost & Hrun & ->)].
  - left. by apply Forall_app.
  - right. exists rf, (l ++ pre), hD, evsD, x, post.
    split_and!; [done|by apply Forall_app|done..|by rewrite <-app_assoc].
Qed.

Lemma session_log_app_r w ftp_path l evs :
  Forall quiet l → session_log w ftp_path evs → session_log w ftp_path (evs ++ l).
Proof.
  intros Hl [Hq|(rf & pre & hD & evsD & x & post & Hrf & Hpre & Hpost & Hrun & ->)].
  - left. by apply Forall_app.
  - right. exists rf, pre, hD, evsD, x, (post ++ l).
    split_and!; [done..|by apply Forall_app|done|].
    by rewrite <-!app_assoc, <-!app_comm_cons, <-app_assoc.
Qed.

Lemma session_log_bind {A B} w ftp_path (m : M A) (f : A → M B) h :
  Forall quiet (m h).2 →
  (∀ a, (m h).1 = Ok a → session_log w ftp_path (f a (h ++ (m h).2)).2) →
  session_log w ftp_path ((m ≫= f) h).2.
Proof.
  intros Hm Hf. rewrite run_bind. destruct (m h) as [[a|e] evs1]; simpl in *.
  - specialize (Hf a eq_refl). destruct (f a (h ++ evs1)) as [r evs2].
    by apply session_log_app_l.
  - by left.
Qed.

Section Session.
Context (w : world).

Lemma emits_upload_files ftp_path changed :
  emits upload_event (upload_files w ftp_path changed).
Proof.
  apply emits_for_each. intros file.
  apply emits_bind; [apply emits_print; left; by eexists|]. intros _.
  apply emits_bind; [apply emits_lift|]. intros rel.
  apply emits_ftp. intros r. right. by eexists _, _, _.
Qed.

Lemma propagates_upload_files P ftp_path changed :
  propagates P (upload_files w ftp_path changed).
Proof.
  apply propagates_for_each. intros file.
  apply propagates_bind; [apply propagates_print|]. intros _.
  apply propagates_bind; [apply propagates_lift|]. intros rel.
  apply propagates_ftp.
Qed.

Lemma upload_files_run ftp_path changed h r evs :
  upload_files w ftp_path changed h = (r, evs) →
  stored evs `prefix_of` changed ∧ (r = Ok () → stored evs = changed).
Proof.
  unfold upload_files.
  revert h r evs. induction changed as [|file files IH]; intros h r evs Hrun.
  { simpl in Hrun. apply ret_inv in Hrun as [-> ->]. split; [apply prefix_nil|done]. }
  cbn [for_each] in Hrun.
  apply bind_inv in Hrun as [(e & Hstep & ->)|([] & evs1 & evs2 & Hstep & Hrest & ->)].
  - split; [|done].
    apply bind_inv in Hstep
      as [(e' & [[=] _]%print_inv & _)|([] & evs3 & evs4 & [_ ->]%print_inv & Hstep & ->)].
    apply bind_inv in Hstep
      as [(e' & [_ ->]%lift_inv & _)|(rel & evs5 & evs6 & [_ ->]%lift_inv & Hstep & ->)].
    + apply prefix_nil.
    + apply ftp_inv in Hstep as [-> _]. simpl. apply prefix_cons, prefix_nil.
  - apply IH in Hrest as [Hpre Hok].
    apply bind_inv in Hstep
      as [(e' & [[=] _]%print_inv & _)|([] & evs3 & evs4 & [_ ->]%print_inv & Hstep & ->)].
    apply bind_inv in Hstep
      as [(e' & _ & [=])|(rel & evs5 & evs6 & [_ ->]%lift_inv & Hstep & ->)].
    apply ftp_inv in Hstep as [-> _]. simpl. split.
    + by apply prefix_cons.
    + intros Hr. by rewrite Hok.
Qed.

Lemma propagates_delete_engine (P : call → Prop) remote_files local_files site ftp_path :
  (∀ p, ¬ P (Dele p)) →
  propagates P
    (delete_remote_files_not_in_local w remote_files local_files site ftp_path).
Proof.
  intros HP. apply propagates_bind; [apply propagates_lift|]. intros s.
  case_decide; [apply propagates_print|].
  apply propagates_bind; [apply propagates_print|]. intros _.
  apply propagates_for_each. intros rel h pre c x post.
  rewrite delete_one_run. simpl.
  destruct pre as [|? [|? [|??]]]; intros [=]; simplify_eq. intros Hc.
  by apply HP in Hc.
Qed.

Lemma propagates_mirror_directories P ftp_path :
  propagates P (mirror_directories w ftp_path).
Proof.
  apply propagates_bind; [apply propagates_print|]. intros _.
  apply propagates_bind; [apply propagates_lift|]. intros lds.
  apply propagates_bind; [apply propagates_get_remote_dirs|]. intros ds.
  apply propagates_bind; [apply propagates_lift|]. intros rds.
  apply propagates_for_each. intros d.
  case_decide; [apply propagates_ret|apply propagates_ftp].
Qed.

Lemma propagates_changed_files P force remote_files local_files :
  propagates P (changed_files w force remote_files local_files).
Proof.
  apply propagates_bind; [apply propagates_print|]. intros _.
  apply propagates_bind; [apply propagates_lift|]. intros cs.
  destruct force; [|apply propagates_ret].
  apply propagates_bind; [apply propagates_print|]. intros _.
  apply propagates_ret.
Qed.

(** Every failed call of a session other than a delete ends it. *)
Lemma propagates_session force host user pw ftp_path :
  propagates (λ c, ∀ p, c ≠ Dele p) (session w force host user pw ftp_path).
Proof.
  unfold session.
  apply propagates_bind; [apply propagates_print|]. intros _.
  apply propagates_bind; [apply propagates_ftp|]. intros _.
  apply propagates_bind; [apply propagates_ftp|]. intros _.
  apply propagates_bind; [apply propagates_ftp|]. intros _.
  apply propagates_bind; [apply propagates_ftp|]. intros _.
  apply propagates_bind; [apply propagates_print|]. intros _.
  apply propagates_bind; [apply propagates_get_remote_files|]. intros remote_files.
  apply propagates_bind; [apply propagates_print|]. intros _.
  apply propagates_bind; [apply propagates_changed_files|]. intros changed.
  apply propagates_bind; [apply propagates_mirror_directories|]. intros _.
  apply propagates_bind; [apply propagates_upload_files|]. intros _.
  apply propagates_bind; [apply propagates_print|]. intros _.
  apply propagates_bind; [|intros _; apply propagates_ftp].
  apply propagates_delete_engine. intros p Hp. by apply (Hp p).
Qed.
End Session.

Section Run.
Context (w : world).

Lemma emits_quiet_changed_files force remote_files local_files :
  emits quiet (changed_files w force remote_files local_files).
Proof.
  apply emits_bind; [by apply emits_print|]. intros _.
  apply emits_bind; [apply emits_lift|]. intros cs.
  destruct force; [|apply emits_ret].
  apply emits_bind; [by apply emits_print|]. intros _. apply emits_ret.
Qed.

Lemma emits_quiet_mirror_directories ftp_path :
  emits quiet (mirror_directories w ftp_path).
Proof.
  intros h. destruct (mirror_directories w ftp_path h) as [r evs] eqn:Hrun.
  apply mirror_directories_run in Hrun as [Hev _].
  eapply Forall_impl; [exact Hev|].
  intros ev [->|[(p & facts & r' & ->)|(d & r' & ->)]]; done.
Qed.

Lemma emits_quiet_upload_files ftp_path changed :
  emits quiet (upload_files w ftp_path changed).
Proof.
  eapply emits_weaken; [|apply emits_upload_files].
  intros ev [[f ->]|(p & f & r & ->)]; done.
Qed.

Lemma emits_quiet_get_remote_files root : emits quiet (get_remote_files w root).
Proof.
  eapply emits_weaken; [|apply emits_get_remote_files].
  by intros ev (p & facts & r & ->).
Qed.

Lemma session_has_log force host user pw ftp_path h :
  session_log w ftp_path (session w force host user pw ftp_path h).2.
Proof.
  unfold session.
  apply session_log_bind; [by apply emits_print|]. intros _ _.
  apply session_log_bind; [by apply emits_ftp|]. intros _ _.
  apply session_log_bind; [by apply emits_ftp|]. intros _ _.
  apply session_log_bind; [by apply emits_ftp|]. intros _ _.
  apply session_log_bind; [by apply emits_ftp|]. intros _ _.
  apply session_log_bind; [by apply emits_print|]. intros _ _.
  apply session_log_bind; [apply emits_quiet_get_remote_files|].
  intros remote_files Hrf.
  rewrite (oblivious_get_remote_files w [] _ []) in Hrf.
  apply session_log_bind; [by apply emits_print|]. intros _ _.
  apply session_log_bind; [apply emits_quiet_changed_files|]. intros changed _.
  apply session_log_bind; [apply emits_quiet_mirror_directories|]. intros _ _.
  apply session_log_bind; [apply emits_quiet_upload_files|]. intros _ _.
  match goal with |- session_log _ _ (_ ?h').2 => generalize h' end. intros h'.
  rewrite run_bind. unfold print at 1. rewrite run_bind.
  destruct (delete_engine_run w remote_files (get_local_files w)
              local_site_path ftp_path (h' ++ [Printed MsgChecking]))
    as (s & body & _ & _ & Hrun); [apply get_local_files_under|].
  rewrite Hrun.
  match goal with |- context [ftp w Quit ?h''] =>
    destruct (ftp w Quit h'') as [r evsQ] eqn:Hquit end.
  apply ftp_inv in Hquit as [-> _]. simpl. right.
  eexists remote_files, [], _, _, _, [].
  split_and!; [done|constructor|constructor|exact Hrun|done].
Qed.

Lemma main_configured force host user pw ftp_path h :
  configured w host user pw ftp_path →
  main w force h =
  (Ok (), (session w force host user pw ftp_path h).2 ++
          closing (session w force host user pw ftp_path h).1).
Proof.
  intros (Hh & Hu & Hp & Hf). unfold main, getenv.
  rewrite Hh, Hu, Hp, Hf. simpl. rewrite !bind_lift_ok.
  unfold try_finally, try_except.
  destruct (session w force host user pw ftp_path h) as [[[]|e] evs]; simpl.
  - done.
  - by rewrite <-app_assoc.
Qed.

Lemma main_unconfigured force h :
  (¬ ∃ host user pw ftp_path, configured w host user pw ftp_path) →
  ∃ key, main w force h = (Raise (KeyError key), []).
Proof.
  intros Hnot. unfold main, getenv.
  destruct (environ w !! "FTP_HOST") as [host|] eqn:Hh; [|by eexists].
  simpl. rewrite bind_lift_ok.
  destruct (environ w !! "FTP_USERNAME") as [user|] eqn:Hu; [|by eexists].
  simpl. rewrite bind_lift_ok.
  destruct (environ w !! "FTP_PASSWORD") as [pw|] eqn:Hp; [|by eexists].
  simpl. rewrite bind_lift_ok.
  destruct (environ w !! "FTP_PATH") as [ftp_path|] eqn:Hf; [|by eexists].
  destruct Hnot. by exists host, user, pw, ftp_path.
Qed.

Lemma main_cases force h :
  (∃ key, main w force h = (Raise (KeyError key), [])) ∨
  (∃ host user pw ftp_path, configured w host user pw ftp_path ∧
     main w force h =
     (Ok (), (session w force host user pw ftp_path h).2 ++
             closing (session w force host user pw ftp_path h).1)).
Proof.
  destruct (environ w !! "FTP_HOST") as [host|] eqn:Hh;
  [destruct (environ w !! "FTP_USERNAME") as [user|] eqn:Hu;
   [destruct (environ w !! "FTP_PASSWORD") as [pw|] eqn:Hp;
    [destruct (environ w !! "FTP_PATH") as [ftp_path|] eqn:Hf|]|]|].
  - right. exists host, user, pw, ftp_path. split; [done|].
    by apply main_configured.
  - left. apply main_unconfigured. intros (?&?&?&?&?&?&?&?). congruence.
  - left. apply main_unconfigured. intros (?&?&?&?&?&?&?&?). congruence.
  - left. apply main_unconfigured. intros (?&?&?&?&?&?&?&?). congruence.
  - left. apply main_unconfigured. intros (?&?&?&?&?&?&?&?). congruence.
Qed.
End Run.


(** The delete calls of the engine: the files to delete, in the order of
    the set, under the remote root. *)
Lemma delete_engine_calls w remote_files local_files site ftp_path h :
  (∀ f, f ∈ keys local_files → ∃ rel, f = site ++ rel) →
  ∃ s evs,
    files_to_delete remote_files local_files site = Ok s ∧
    (∀ rel, rel ∈ s ↔ (∃ r, r ∈ remote_files ∧ r.1.1 = rel) ∧
                      site ++ rel ∉ keys local_files) ∧
    delete_remote_files_not_in_local w remote_files local_files site ftp_path h =
      (Ok (), evs) ∧
    deleted evs = (Path w ftp_path ++.) <$> elements s.
Proof.
  intros Hunder.
  destruct (delete_engine_run w remote_files local_files site ftp_path h Hunder)
    as (s & body & Hs & Hlog & Hrun).
  destruct (files_to_delete_ok remote_files local_files site Hunder)
    as (s' & Hs' & Hmem).
  assert (s' = s) as -> by congruence.
  exists s. eexists. split_and!; [done..|exact Hrun|].
  rewrite <-(deletion_log_deleted w ftp_path _ _ Hlog). by case_decide.
Qed.


Lemma mkd_loop_total w (remote_dirs local_dirs : list path) h :
  (∀ h d, reply w h (Mkd d) = None) →
  ∃ evs, for_each local_dirs
           (λ d, if decide (d ∈ remote_dirs) then mret () else ftp w (Mkd d)) h =
         (Ok (), evs).
Proof.
  intros Hreply. revert h. induction local_dirs as [|d ds IH]; intros h.
  { by exists []. }
  cbn [for_each]. destruct (decide (d ∈ remote_dirs)).
  - destruct (IH (h ++ [])) as [evs Hevs]. exists ([] ++ evs).
    erewrite bind_ok; [|reflexivity]. by rewrite Hevs.
  - destruct (IH (h ++ [Called (Mkd d) None])) as [evs Hevs].
    exists ([Called (Mkd d) None] ++ evs).
    erewrite bind_ok; [by rewrite Hevs|]. unfold ftp. by rewrite Hreply.
Qed.

(** X11. The mirroring phase completes when the remote tree fits the stack,
    the server answers the listings and accepts every make-directory
    call. *)
Lemma mirror_directories_total w ftp_path h :
  (∀ d, reachable w (Path w ftp_path) d →
        length d < length (Path w ftp_path) + recursion_limit w) →
  (∀ d, reachable w (Path w ftp_path) d → answers w ["type"] d) →
  (∀ h d, reply w h (Mkd d) = None) →
  ∃ evs, mirror_directories w ftp_path h = (Ok (), evs).
Proof.
  intros Hdepth Hans Hreply. unfold mirror_directories.
  destruct (get_local_dirs_ok w) as (lds & -> & _).
  rewrite run_bind. unfold print at 1. rewrite run_bind. unfold lift at 1.
  destruct (recursive_get_dirs_total w (recursion_limit w) [] (Path w ftp_path)
              ((h ++ [Printed MsgMirroring]) ++ [])) as (ds & evs1 & Hdirs); [done..|].
  fold (get_remote_dirs w (Path w ftp_path)) in Hdirs.
  rewrite run_bind, Hdirs.
  apply get_remote_dirs_ok in Hdirs as [_ Hreach].
  assert (list_of (rel_to (Path w ftp_path)) ds =
          Ok (drop (length (Path w ftp_path)) <$> ds)) as ->.
  { apply list_of_ok. intros d [rel ->]%Hreach%(reachable_under w).
    unfold rel_to. rewrite relative_to_app. by rewrite drop_app_length. }
  rewrite run_bind. unfold lift at 1.
  match goal with |- context [for_each lds ?body ?h'] =>
    destruct (mkd_loop_total w (drop (length (Path w ftp_path)) <$> ds) lds h' Hreply)
      as [evs2 ->] end.
  by eexists.
Qed.

(** * The claims *)

(** C1. Without the force flag, and with remote sizes that parse as
    integers, the change detection returns a change set, and a local file
    is in it exactly when no remote entry has its relative path or the
    (first) remote entry at that path reports a size strictly below the
    local size.  In particular a file whose remote entry reports a size
    at least the local size is not in the change set. *)
Theorem change_set_without_force w (remote_files : list remote_entry) h :
  Forall (λ r, is_Some (int w r.2)) remote_files →
  ∃ cs,
    changed_files w false remote_files (get_local_files w) h =
      (Ok cs, [Printed MsgLooking]) ∧
    ∀ local_file info, (local_file, info) ∈ get_local_files w →
      ∃ rel, local_file = local_site_path ++ rel ∧
        (local_file ∈ cs ↔
           (∀ r, r ∈ remote_files → r.1.1 ≠ rel) ∨
           (∃ r n, first_at rel remote_files r ∧ int w r.2 = Some n ∧
                   (n < info_size info)%Z)) ∧
        (∀ r n, first_at rel remote_files r → int w r.2 = Some n →
                (info_size info ≤ n)%Z → local_file ∉ cs).
Proof.
  intros Hint. rewrite Forall_forall in Hint.
  destruct (find_changes_total w remote_files (get_local_files w) [])
    as [cs Hcs]; [apply get_local_files_under|done|].
  exists cs. split.
  { unfold changed_files. rewrite run_bind. unfold print at 1.
    rewrite run_bind. unfold lift at 1. by rewrite Hcs. }
  apply find_changes_ok in Hcs as (new & -> & Hnew). simpl.
  intros local_file info Hin.
  assert (local_file ∈ keys (get_local_files w)) as Hkey.
  { apply list_elem_of_fmap. by exists (local_file, info). }
  destruct (get_local_files_under w local_file Hkey) as [rel ->].
  exists rel. split; [done|].
  assert (local_site_path ++ rel ∈ new ↔ selected w remote_files rel info) as Hiff.
  { rewrite Hnew. split.
    - intros (info' & rel' & Hin' & Hrel%relative_to_Some & Hsel).
      apply app_inv_head in Hrel as <-.
      assert ((local_site_path ++ rel, info') = (local_site_path ++ rel, info)) as [= ->];
        [|done].
      eapply (NoDup_fmap_eq fst); [apply NoDup_get_local_files|done..].
    - intros Hsel. exists info, rel. by rewrite relative_to_app. }
  split; [done|].
  intros r n Hfirst Hn Hle [Hnone|(r' & n' & Hfirst' & Hn' & Hlt)]%Hiff.
  - destruct Hfirst as (pre & post & -> & Hr & _).
    apply (Hnone r); [|done]. apply elem_of_app. right. by left.
  - assert (r' = r) as -> by by eapply first_at_unique.
    simplify_eq. lia.
Qed.

(** C2, as amended.  The flag is looked at after the comparison loop
    has run, so the remote state still matters: with the force flag,
    and with remote sizes that parse as integers, the change set is the
    list of the keys of [local_files], every file of the local tree,
    each once, whatever else the remote files are. *)
Theorem change_set_with_force w (remote_files : list remote_entry) h :
  Forall (λ r, is_Some (int w r.2)) remote_files →
  changed_files w true remote_files (get_local_files w) h =
    (Ok (keys (get_local_files w)), [Printed MsgLooking; Printed MsgForce]) ∧
  NoDup (keys (get_local_files w)) ∧
  ∀ p, p ∈ keys (get_local_files w) ↔
       ∃ rel info, p = local_site_path ++ rel ∧
                   is_file_in rel info (local_site w).
Proof.
  intros Hint. rewrite Forall_forall in Hint.
  destruct (find_changes_total w remote_files (get_local_files w) [])
    as [cs Hcs]; [apply get_local_files_under|done|].
  split_and!.
  - unfold changed_files. rewrite run_bind. unfold print at 1.
    rewrite run_bind. unfold lift at 1. by rewrite Hcs.
  - apply NoDup_get_local_files.
  - apply elem_of_keys_get_local_files_tree.
Qed.



(** C5. When no local directory holds two entries of one name and the
    mirroring phase completes, it issues exactly one make-directory call
    for each local directory whose relative path is not a remote
    directory, and none for a local directory that is. *)
Theorem mirror_creates_missing_directories w ftp_path h evs :
  well_formed (local_site w) →
  mirror_directories w ftp_path h = (Ok (), evs) →
  NoDup (made_dirs evs) ∧
  ∀ d, d ∈ made_dirs evs ↔
       is_dir_in d (local_site w) ∧
       ¬ reachable w (Path w ftp_path) (Path w ftp_path ++ d).
Proof.
  intros Hwf Hrun.
  destruct (get_local_dirs_ok w) as (lds & Hlds & Hmem & Hnodup).
  apply mirror_directories_run in Hrun
    as [_ (lds' & Hlds' & [[? _]|(rds & Hrds & _ & Heq)])]; [done|].
  assert (lds' = lds) as -> by congruence.
  rewrite Heq by done. split.
  - apply NoDup_filter. by apply Hnodup.
  - intros d. rewrite list_elem_of_filter, Hmem.
    specialize (Hrds d). tauto.
Qed.

(** C6. A store call that raises is the last call of the run: what
    follows it in the log is the error line of the top-level handler and
    the banner, so no further file is uploaded and the deletion phase is
    not reached. *)
Theorem upload_failure_aborts_run w force h remote local_file e pre post :
  (main w force h).2 = pre ++ Called (Stor remote local_file) (Some e) :: post →
  post = [Printed (MsgError e); Printed MsgFinished] ∧ (main w force h).1 = Ok ().
Proof.
  destruct (main_cases w force h)
    as [[key ->]|(host & user & pw & ftp_path & _ & ->)]; simpl.
  { by destruct pre. }
  intros Heq. symmetry in Heq.
  destruct (locate_left (λ ev, ∃ c r, ev = Called c r) _ _ _ _ _ Heq)
    as (post' & -> & Hevs); [by eexists _, _| |].
  { destruct (session w force host user pw ftp_path h).1; repeat constructor;
      by intros (? & ? & ?). }
  destruct (propagates_session w force host user pw ftp_path h _ _ _ _ Hevs)
    as [-> ->]; [done|]. done.
Qed.

(** On a console that takes every line the script is the [main] of the
    development above. *)
Lemma main_on_accepting_console w force :
  Console.main accepting w force = main w force.
Proof. reflexivity. Qed.

Lemma console_main_configured stdout w force host user pw ftp_path h :
  configured w host user pw ftp_path →
  Console.main stdout w force h =
  try_finally
    (try_except (Console.session stdout w force host user pw ftp_path)
                (λ e, Console.print stdout (MsgError e)))
    (Console.print stdout MsgFinished) h.
Proof.
  intros (Hh & Hu & Hp & Hf). unfold Console.main, getenv.
  rewrite Hh, Hu, Hp, Hf. cbn [or_raise]. by rewrite !bind_lift_ok.
Qed.

(** C7, as amended.  When the four settings are in the environment and
    the console takes the error line and the banner, every exception
    raised in the [try] block, by the server, by the program or by a
    line the console refuses, is caught: the run returns normally, the
    error is printed after the events of the session, and the banner is
    the last line. *)
Theorem session_errors_are_caught stdout w force h host user pw ftp_path :
  configured w host user pw ftp_path →
  (∀ h' e, stdout h' (MsgError e) = None) →
  (∀ h', stdout h' MsgFinished = None) →
  ∃ evs,
    Console.main stdout w force h = (Ok (), evs ++ [Printed MsgFinished]) ∧
    evs = (Console.session stdout w force host user pw ftp_path h).2 ++
          match (Console.session stdout w force host user pw ftp_path h).1 with
          | Ok _ => []
          | Raise e => [Printed (MsgError e)]
          end.
Proof.
  intros Hconf Herror Hbanner.
  rewrite (console_main_configured stdout w force host user pw ftp_path h Hconf).
  unfold try_finally, try_except.
  destruct (Console.session stdout w force host user pw ftp_path h)
    as [[[]|e] evs]; cbn [fst snd].
  - unfold Console.print. rewrite Hbanner. eexists. split; [done|].
    by rewrite app_nil_r.
  - unfold Console.print. rewrite Herror, Hbanner. by eexists.
Qed.

(** C8. The remote enumeration issues listing calls only.  When it
    returns, it has listed the directories reachable from the root for
    their types, then listed each of them again in full, and its result
    holds exactly the entries of these listings tagged ['file'], with
    their [modify] and [size] facts.  A listing call that raises is the
    last call, and the enumeration raises the same exception. *)
Theorem remote_enumeration w root h r evs :
  get_remote_files w root h = (r, evs) →
  Forall (answered w) evs ∧
  (∀ files, r = Ok files →
     ∃ ds, (∀ d, d ∈ ds ↔ reachable w root d) ∧
           evs = (type_listed <$> ds) ++ (fully_listed <$> ds) ∧
           ∀ f, f ∈ files ↔ listed_file w root f) ∧
  (∀ pre c e post, evs = pre ++ Called c (Some e) :: post →
     post = [] ∧ r = Raise e).
Proof.
  intros Hrun. split_and!.
  - pose proof (emits_answered_get_remote_files w root h) as Hem.
    by rewrite Hrun in Hem.
  - intros files ->. by apply get_remote_files_ok in Hrun.
  - intros pre c e post ->.
    pose proof (propagates_get_remote_files w (λ _, True) root h pre c e post) as Hp.
    rewrite Hrun in Hp. by apply Hp.
Qed.

(** C9, as amended.  The mirroring phase issues listing and
    make-directory calls only, so it removes nothing.  In the whole run
    no remove-directory call is issued: a remote directory is never
    removed.  What it holds is not left alone: a delete call is for the
    path of a remote entry tagged ['file'] that has no local file at its
    relative path, in whatever directory it lies. *)
Theorem mirroring_never_removes w ftp_path force h :
  Forall mirror_event (mirror_directories w ftp_path h).2 ∧
  Forall (λ ev, ∀ p r, ev ≠ Called (Rmd p) r) (main w force h).2 ∧
  ∀ p r, Called (Dele p) r ∈ (main w force h).2 →
    ∃ fp f, environ w !! "FTP_PATH" = Some fp ∧ listed_file w [] f ∧
            p = Path w fp ++ f.1.1 ∧
            local_site_path ++ f.1.1 ∉ keys (get_local_files w).
Proof.
  split.
  { destruct (mirror_directories w ftp_path h) as [r evs] eqn:Hrun.
    by apply mirror_directories_run in Hrun as [? _]. }
  destruct (main_cases w force h)
    as [[key ->]|(host & user & pw & fp & Hconf & ->)]; simpl.
  { split; [constructor|]. by intros p r ?%elem_of_nil. }
  assert (Forall quiet (closing (session w force host user pw fp h).1)) as Hclosing.
  { destruct (session w force host user pw fp h).1; by repeat constructor. }
  destruct (session_has_log w force host user pw fp h)
    as [Hq|(rf & pre & hD & evsD & x & post & Hrf & Hpre & Hpost & Hrun & ->)].
  { assert (Forall quiet ((session w force host user pw fp h).2 ++
                          closing (session w force host user pw fp h).1)) as Hall
      by by apply Forall_app.
    rewrite Forall_forall in Hall. split.
    - apply Forall_forall. intros ev Hev%Hall p r ->. done.
    - intros p r Hin%Hall. done. }
  destruct (delete_engine_calls w rf (get_local_files w) local_site_path fp hD)
    as (s0 & evsD' & _ & Hmem & HrunD & Hdel); [apply get_local_files_under|].
  assert (evsD' = evsD) as -> by congruence.
  destruct (delete_engine_run w rf (get_local_files w) local_site_path fp hD)
    as (s & body & _ & Hlog%deletion_log_events & HrunD');
    [apply get_local_files_under|].
  assert (Forall (λ ev, ∀ p r, ev ≠ Called (Rmd p) r) evsD) as HnoRmd.
  { rewrite HrunD' in Hrun. injection Hrun as <-. constructor.
    - by case_decide.
    - eapply Forall_impl; [exact Hlog|]. by intros ev Hev p r ->. }
  assert (∀ l, Forall quiet l → Forall (λ ev, ∀ p r, ev ≠ Called (Rmd p) r) l) as Hweak.
  { intros l Hl. eapply Forall_impl; [exact Hl|]. by intros ev Hev p r ->. }
  split.
  - apply Forall_app. split; [|by apply Hweak].
    apply Forall_app. split; [by apply Hweak|].
    constructor; [done|]. apply Forall_app. split; [done|].
    constructor; [done|]. by apply Hweak.
  - intros p r Hin.
    assert (p ∈ deleted evsD) as Hp.
    { rewrite Forall_forall in Hpre, Hpost, Hclosing.
      rewrite !elem_of_app, !elem_of_cons, !elem_of_app, !elem_of_cons in Hin.
      destruct Hin as [[Hin%Hpre|[?|[Hin|[?|Hin%Hpost]]]]|Hin%Hclosing]; try done.
      apply list_elem_of_omap. by exists (Called (Dele p) r). }
    rewrite Hdel in Hp.
    apply list_elem_of_fmap in Hp
      as (rel & -> & [(f & Hf & <-) Hlocal]%elem_of_elements%Hmem).
    destruct (get_remote_files w [] []) as [r' evs'] eqn:Hgrf. simpl in Hrf. subst r'.
    apply get_remote_files_ok in Hgrf as (ds & _ & _ & Hfiles).
    exists fp, f. split_and!; [apply Hconf|by apply Hfiles|done..].
Qed.


(** * The claims on the sample worlds *)

Lemma sample_sizes_parse :
  Forall (λ r : remote_entry, is_Some (int sample_world r.2)) sample_remote_files.
Proof. repeat constructor; by eexists. Defined.

Lemma sample_site_well_formed : well_formed sample_site.
Proof.
  constructor.
  - by apply (bool_decide_unpack _).
  - intros d cs Hin.
    repeat (apply elem_of_cons in Hin as [Hin|Hin]; [simplify_eq|]);
      try by apply elem_of_nil in Hin.
    + constructor; [by apply (bool_decide_unpack _)|].
      intros d' cs' Hin.
      repeat (apply elem_of_cons in Hin as [Hin|Hin]; [simplify_eq|]).
      by apply elem_of_nil in Hin.
    + constructor; [constructor|]. by intros d' cs' Hin%elem_of_nil.
Defined.

(** C1 on the sample: [a.txt] has no remote entry, [c.txt] is 20 bytes
    against 15, [css/s.css] is 7 against 7. *)
Lemma change_set_without_force_sample :
  Forall (λ r : remote_entry, is_Some (int sample_world r.2)) sample_remote_files ∧
  ∃ cs,
    changed_files sample_world false sample_remote_files
      (get_local_files sample_world) [] = (Ok cs, [Printed MsgLooking]) ∧
    ∀ local_file info, (local_file, info) ∈ get_local_files sample_world →
      ∃ rel, local_file = local_site_path ++ rel ∧
        (local_file ∈ cs ↔
           (∀ r, r ∈ sample_remote_files → r.1.1 ≠ rel) ∨
           (∃ r n, first_at rel sample_remote_files r ∧
                   int sample_world r.2 = Some n ∧ (n < info_size info)%Z)) ∧
        (∀ r n, first_at rel sample_remote_files r →
                int sample_world r.2 = Some n →
                (info_size info ≤ n)%Z → local_file ∉ cs).
Proof.
  split; [exact sample_sizes_parse|].
  apply (change_set_without_force sample_world sample_remote_files []).
  exact sample_sizes_parse.
Defined.

(** C2 on the sample: all three local files are selected. *)
Lemma change_set_with_force_sample :
  Forall (λ r : remote_entry, is_Some (int sample_world r.2)) sample_remote_files ∧
  changed_files sample_world true sample_remote_files
    (get_local_files sample_world) [] =
    (Ok [["output"; "a.txt"]; ["output"; "c.txt"]; ["output"; "css"; "s.css"]],
     [Printed MsgLooking; Printed MsgForce]).
Proof.
  split; [exact sample_sizes_parse|].
  exact (proj1 (change_set_with_force sample_world sample_remote_files []
                  sample_sizes_parse)).
Defined.

(** C2 as stated fails: the comparison is not bypassed.  The flag is
    looked at after the comparison loop, so a remote size that [int]
    refuses raises [ValueError] even with the flag, before the line of
    the force branch is printed, and there is no change set. *)
Example force_after_the_comparison :
  changed_files sample_world true [(["a.txt"], "20240101", "n/a")]
    (get_local_files sample_world) [] = (Raise ValueError, [Printed MsgLooking]).
Proof. reflexivity. Qed.



(** C5 on the sample: [img] is created, [css] is not. *)
Lemma mirror_creates_missing_directories_sample :
  well_formed (local_site sample_world) ∧
  mirror_directories sample_world "/site" [] =
    (Ok (), [Printed MsgMirroring; Called (Mlsd ["/"; "site"] ["type"]) None;
             Called (Mlsd ["/"; "site"; "css"] ["type"]) None;
             Called (Mlsd ["/"; "site"; "tmp"] ["type"]) None;
             Called (Mkd ["img"]) None]) ∧
  ∀ d, d ∈ [["img"]] ↔
       is_dir_in d (local_site sample_world) ∧
       ¬ reachable sample_world (Path sample_world "/site")
           (Path sample_world "/site" ++ d).
Proof.
  split; [exact sample_site_well_formed|]. split; [reflexivity|].
  exact (proj2 (mirror_creates_missing_directories sample_world "/site" [] _
                  sample_site_well_formed eq_refl)).
Defined.

(** C6 on a server that breaks the transfer of [c.txt]: [css/s.css] is
    not uploaded and nothing is deleted. *)
Lemma upload_failure_aborts_run_sample :
  (main broken_upload_world false []).2 =
    take 22 (main broken_upload_world false []).2 ++
    Called (Stor ["/"; "site"; "c.txt"] ["output"; "c.txt"])
           (Some (OtherError "timed out")) ::
    drop 23 (main broken_upload_world false []).2 ∧
  drop 23 (main broken_upload_world false []).2 =
    [Printed (MsgError (OtherError "timed out")); Printed MsgFinished] ∧
  (main broken_upload_world false []).1 = Ok ().
Proof.
  split; [reflexivity|].
  apply (upload_failure_aborts_run broken_upload_world false []
           ["/"; "site"; "c.txt"] ["output"; "c.txt"] (OtherError "timed out")
           (take 22 (main broken_upload_world false []).2)).
  reflexivity.
Defined.

(** C7, as amended, on a console that cannot print the name of
    [output/c.txt]: the upload loop raises after [a.txt] is stored, the
    handler prints the error and the banner follows. *)
Lemma session_errors_are_caught_sample :
  configured sample_world "ftp.example.org" "user" "secret" "/site" ∧
  (Console.session picky_console sample_world false "ftp.example.org" "user"
     "secret" "/site" []).1 = Raise (OtherError "UnicodeEncodeError") ∧
  ∃ evs,
    Console.main picky_console sample_world false [] =
      (Ok (), evs ++ [Printed MsgFinished]) ∧
    evs = (Console.session picky_console sample_world false "ftp.example.org"
             "user" "secret" "/site" []).2 ++
          match (Console.session picky_console sample_world false
                   "ftp.example.org" "user" "secret" "/site" []).1 with
          | Ok _ => []
          | Raise e => [Printed (MsgError e)]
          end.
Proof.
  assert (configured sample_world "ftp.example.org" "user" "secret" "/site") as Hconf.
  { by repeat split. }
  split; [exact Hconf|]. split; [reflexivity|].
  exact (session_errors_are_caught picky_console sample_world false [] _ _ _ _
           Hconf (λ _ _, eq_refl) (λ _, eq_refl)).
Defined.

(** C7 as stated fails in two ways.  With no setting in the environment
    the lookup of [FTP_HOST] raises before the [try] block: the
    exception leaves the script, no error line and no banner are
    printed.  With the settings, on a console without the emoji, the
    first line of the [try] block raises, the error line raises in the
    handler and the banner raises in the [finally] clause: the exception
    leaves the script and nothing is printed. *)
Lemma banner_is_not_always_printed :
  ((main unconfigured_world false []).1 = Raise (KeyError "FTP_HOST") ∧
   Printed MsgFinished ∉ (main unconfigured_world false []).2) ∧
  (configured sample_world "ftp.example.org" "user" "secret" "/site" ∧
   Console.main ascii_console sample_world false [] =
     (Raise (OtherError "UnicodeEncodeError"), [])).
Proof.
  split; [split; [reflexivity|by intros ?%elem_of_nil]|].
  split; [by repeat split|reflexivity].
Qed.

(** C8 on the sample. *)
Lemma remote_enumeration_sample :
  get_remote_files sample_world [] [] =
    (Ok sample_remote_files,
     (type_listed <$> [[]; ["css"]; ["tmp"]]) ++
     (fully_listed <$> [[]; ["css"]; ["tmp"]])) ∧
  ∀ f, f ∈ sample_remote_files ↔ listed_file sample_world [] f.
Proof.
  split; [reflexivity|].
  destruct (remote_enumeration sample_world [] [] _ _ eq_refl) as (_ & Hok & _).
  destruct (Hok _ eq_refl) as (ds & _ & _ & Hfiles). exact Hfiles.
Defined.

(** C9 as stated fails on a run without any error.  The remote
    directory [old] has no local counterpart; the mirroring phase lists
    the server, which is not a make-directory call, and the run deletes
    [old/page.html]: the directory stays, what it holds does not. *)
Lemma remote_only_directory_is_emptied :
  ¬ is_dir_in ["old"] (local_site stale_dir_world) ∧
  reachable stale_dir_world ["/"; "site"] ["/"; "site"; "old"] ∧
  (main stale_dir_world false []).1 = Ok () ∧
  Called (Mlsd ["/"; "site"] ["type"]) None
    ∈ (mirror_directories stale_dir_world "/site" []).2 ∧
  Called (Dele ["/"; "site"; "old"; "page.html"]) None
    ∈ (main stale_dir_world false []).2.
Proof.
  split_and!.
  - intros (cs & Hin & _). vm_compute in Hin.
    repeat (apply elem_of_cons in Hin as [[=]|Hin]).
    by apply elem_of_nil in Hin.
  - apply (reach_child stale_dir_world ["/"; "site"]
             [ ("c.txt", facts_of "file" "20240101" "20");
               ("old", facts_of "dir" "20240101" "0") ]
             "old" (facts_of "dir" "20240101" "0"));
      [reflexivity| |reflexivity|apply reach_here].
    apply list_elem_of_further, list_elem_of_here.
  - reflexivity.
  - apply list_elem_of_In. vm_compute. tauto.
  - apply list_elem_of_In. vm_compute. tauto.
Qed.


(** * Further properties of the code *)

(** ** The upload loop *)

Lemma upload_one_run w ftp_path rel h :
  ∃ x,
    (print (MsgUploading (local_site_path ++ rel));;
     rel' ← lift (rel_to local_site_path (local_site_path ++ rel));
     ftp w (Stor (Path w ftp_path ++ rel') (local_site_path ++ rel))) h =
    (match x with None => Ok () | Some e => Raise e end,
     [Printed (MsgUploading (local_site_path ++ rel));
      Called (Stor (Path w ftp_path ++ rel) (local_site_path ++ rel)) x]).
Proof.
  unfold rel_to. rewrite relative_to_app. cbn [or_raise].
  rewrite run_bind. unfold print at 1. rewrite bind_lift_ok.
  unfold ftp. destruct (reply w _ _) as [e|]; [by exists (Some e)|by exists None].
Qed.

(** X12. The upload loop stores the files of the change set in order, each
    under the remote root at its path relative to [output]; it stops at
    the first store that raises, and when it returns it has stored them
    all. *)
Theorem upload_sends_change_set w ftp_path (rels : list path) h :
  stor_calls (upload_files w ftp_path ((local_site_path ++.) <$> rels) h).2
    `prefix_of`
    (λ rel, (Path w ftp_path ++ rel, local_site_path ++ rel)) <$> rels ∧
  ((upload_files w ftp_path ((local_site_path ++.) <$> rels) h).1 = Ok () →
   stor_calls (upload_files w ftp_path ((local_site_path ++.) <$> rels) h).2 =
   (λ rel, (Path w ftp_path ++ rel, local_site_path ++ rel)) <$> rels).
Proof.
  unfold upload_files. revert h. induction rels as [|rel rels IH]; intros h.
  { split; [apply prefix_nil|done]. }
  rewrite !fmap_cons. cbn [for_each].
  destruct (upload_one_run w ftp_path rel h) as [x Hone].
  rewrite run_bind, Hone. destruct x as [e|]; simpl.
  - split; [apply prefix_cons, prefix_nil|done].
  - match goal with |- context [for_each _ _ ?h'] => specialize (IH h') end.
    destruct (for_each _ _ _) as [r evs]. simpl in *. destruct IH as [Hpre Hok].
    split; [by apply prefix_cons|]. intros Hr. by rewrite Hok.
Qed.

(** ** The change set *)

Lemma find_changes_sublist w remote_files items acc cs :
  find_changes w remote_files items acc = Ok cs →
  ∃ new, cs = acc ++ new ∧ new `sublist_of` keys items.
Proof.
  revert acc cs. induction items as [|[file info] items IH]; intros acc cs Hrun.
  { simplify_eq/=. exists []. by rewrite app_nil_r. }
  cbn [find_changes] in Hrun.
  apply outcome_bind_inv in Hrun as (rel & _ & Hrun).
  apply outcome_bind_inv in Hrun as (found & _ & Hrun).
  assert (∀ acc', find_changes w remote_files items acc' = Ok cs →
                  acc' = acc ++ [file] ∨ acc' = acc →
                  ∃ new, cs = acc ++ new ∧ new `sublist_of` file :: keys items)
    as Hstep.
  { intros acc' (new & -> & Hsub)%IH [->| ->].
    - exists (file :: new). rewrite <-app_assoc. split; [done|].
      by apply sublist_skip.
    - exists new. split; [done|]. by apply sublist_cons. }
  destruct found as [r|]; [|by eapply Hstep; eauto].
  apply outcome_bind_inv in Hrun as (n & _ & Hrun).
  case_decide; eapply Hstep; eauto.
Qed.

Lemma changed_files_sublist w force remote_files local_files h cs :
  (changed_files w force remote_files local_files h).1 = Ok cs →
  cs `sublist_of` keys local_files.
Proof.
  destruct (changed_files w force remote_files local_files h) as [r evs] eqn:Hrun.
  simpl. intros ->. unfold changed_files in Hrun.
  apply bind_inv in Hrun as [(e & _ & [=])|([] & evs1 & evs2 & _ & Hrun & ->)].
  apply bind_inv in Hrun
    as [(e & _ & [=])|(changed & evs3 & evs4 & [Hfind _]%lift_inv & Hrun & ->)].
  symmetry in Hfind. apply find_changes_sublist in Hfind as (new & -> & Hsub).
  destruct force.
  - apply bind_inv in Hrun as [(e & _ & [=])|([] & evs5 & evs6 & _ & Hrun & ->)].
    by apply ret_inv in Hrun as [[= <-] _].
  - by apply ret_inv in Hrun as [[= <-] _].
Qed.

(** X8. The change set lists local files in the order of [local_files],
    none of them twice (the keys of a dictionary are distinct). *)
Theorem change_set_in_walk_order w force remote_files local_files h cs evs :
  NoDup (keys local_files) →
  changed_files w force remote_files local_files h = (Ok cs, evs) →
  cs `sublist_of` keys local_files ∧ NoDup cs.
Proof.
  intros Hnodup Hrun.
  assert (cs `sublist_of` keys local_files) as Hsub.
  { apply (changed_files_sublist w force remote_files local_files h).
    by rewrite Hrun. }
  split; [done|]. by eapply sublist_NoDup.
Qed.

(** ** Reading a listing *)

Lemma fact_none name (fs : gmap string string) k :
  fs !! k = None → fact (name, fs) k = Raise (KeyError k).
Proof. unfold fact. simpl. by intros ->. Qed.

(** X2. The comprehension of line 26 returns exactly when every entry has a
    type and every entry tagged ['file'] has its [modify] and [size]
    facts; it then keeps the files in listing order.  Otherwise it raises
    [KeyError] for a fact that some entry lacks. *)
Theorem file_entries_reads_or_raises dir (infos : list entry) :
  match file_entries dir infos with
  | Ok files =>
      Forall readable infos ∧
      files.*1.*1 =
        (λ e : entry, joinpath dir e.1) <$>
          filter (λ e : entry, e.2 !! "type" = Some "file") infos
  | Raise e =>
      ∃ name fs key, (name, fs) ∈ infos ∧ fs !! key = None ∧
                     e = KeyError key ∧ ¬ readable (name, fs)
  end.
Proof.
  induction infos as [|[name fs] infos IH]; cbn [file_entries].
  { split; [constructor|done]. }
  assert (∀ e, (∃ n f k, (n, f) ∈ infos ∧ f !! k = None ∧ e = KeyError k ∧
                         ¬ readable (n, f)) →
               ∃ n f k, (n, f) ∈ (name, fs) :: infos ∧ f !! k = None ∧
                        e = KeyError k ∧ ¬ readable (n, f)) as Hlater.
  { intros e (n & f & k & ? & ?). exists n, f, k. split; [by right|done]. }
  destruct (fs !! "type") as [ty|] eqn:Hty.
  - rewrite (fact_some _ _ _ _ Hty). simpl.
    destruct (decide (ty = "file")) as [->|Hne].
    + destruct (fs !! "modify") as [m|] eqn:Hm.
      * rewrite (fact_some _ _ _ _ Hm). simpl.
        destruct (fs !! "size") as [s|] eqn:Hs.
        -- rewrite (fact_some _ _ _ _ Hs). simpl.
           revert IH. destruct (file_entries dir infos) as [files|e]; intros IH; simpl.
           ++ destruct IH as [Hall Hfiles]. split.
              ** constructor; [|done]. split; simpl; [by rewrite Hty|].
                 intros _. by rewrite Hm, Hs.
              ** rewrite filter_cons_True by done. simpl. by f_equal.
           ++ by apply Hlater.
        -- rewrite (fact_none _ _ _ Hs). simpl.
           exists name, fs, "size". split_and!; [by left|done..|].
           unfold readable. simpl. intros [_ Hf]. destruct (Hf Hty) as [_ [? ?]].
           congruence.
      * rewrite (fact_none _ _ _ Hm). simpl.
        exists name, fs, "modify". split_and!; [by left|done..|].
        unfold readable. simpl. intros [_ Hf]. destruct (Hf Hty) as [[? ?] _].
        congruence.
    + revert IH. destruct (file_entries dir infos) as [files|e]; intros IH; simpl.
      * destruct IH as [Hall Hfiles]. split.
        -- constructor; [|done]. split; simpl; [by rewrite Hty|]. congruence.
        -- rewrite filter_cons_False; [done|]. simpl. congruence.
      * by apply Hlater.
  - rewrite (fact_none _ _ _ Hty). simpl.
    exists name, fs, "type". split_and!; [by left|done..|].
    unfold readable. simpl. intros [[? ?] _]. congruence.
Qed.

(** ** The deletion engine *)


(** X9. With no remote file, every local file is selected without the flag
    and nothing is deleted; this is the first run against an empty
    server. *)
Theorem empty_remote_uploads_all w ftp_path h h' :
  changed_files w false [] (get_local_files w) h =
    (Ok (keys (get_local_files w)), [Printed MsgLooking]) ∧
  delete_remote_files_not_in_local w [] (get_local_files w) local_site_path
    ftp_path h' = (Ok (), [Printed MsgNothingToDelete]).
Proof.
  split.
  - assert (∀ items acc,
      (∀ f, f ∈ keys items → ∃ rel, f = local_site_path ++ rel) →
      find_changes w [] items acc = Ok (acc ++ keys items)) as Hall.
    { induction items as [|[file info] items IH]; intros acc Hunder.
      - by rewrite app_nil_r.
      - cbn [find_changes]. destruct (Hunder file) as [rel ->]; [by left|].
        unfold rel_to. rewrite relative_to_app. simpl.
        rewrite IH; [by rewrite <-app_assoc|]. intros f Hf. apply Hunder. by right. }
    unfold changed_files. rewrite run_bind. unfold print at 1.
    rewrite run_bind. unfold lift at 1.
    by rewrite Hall by apply get_local_files_under.
  - destruct (delete_engine_run w [] (get_local_files w) local_site_path ftp_path h')
      as (s & body & Hs & Hlog & Hrun); [apply get_local_files_under|].
    destruct (files_to_delete_ok [] (get_local_files w) local_site_path)
      as (s' & Hs' & Hmem); [apply get_local_files_under|].
    assert (s' = s) as -> by congruence.
    assert (s = ∅) as ->.
    { apply leibniz_equiv, elem_of_equiv_empty. intros rel [(r & Hr & _) _]%Hmem.
      by apply elem_of_nil in Hr. }
    rewrite elements_empty in Hlog. inversion Hlog. subst body.
    rewrite Hrun. by rewrite decide_True.
Qed.


(** ** The dictionary of local files *)

Lemma is_file_in_functional rel : ∀ children info info',
  well_formed children →
  is_file_in rel info children → is_file_in rel info' children → info = info'.
Proof.
  induction rel as [|x rel IH]; intros children info info' Hwf; [done|].
  destruct Hwf as [children Hnames Hsub].
  destruct rel as [|y rel].
  - simpl. intros H1 H2.
    assert (file_node x (info_modify info) (info_size info) =
            file_node x (info_modify info') (info_size info')) as [= Hm Hs].
    { by eapply (NoDup_fmap_eq node_name). }
    destruct info, info'. simpl in *. by subst.
  - intros (cs & Hcs & H1) (cs' & Hcs' & H2).
    assert (dir_node x cs = dir_node x cs') as [= <-].
    { by eapply (NoDup_fmap_eq node_name). }
    eapply (IH cs); [by eapply Hsub|done..].
Qed.

(** X7. When no directory holds two entries of one name, [local_files] maps
    exactly the files of the tree, each to its own modification time and
    size. *)
Theorem local_files_record_the_tree w p info :
  well_formed (local_site w) →
  (p, info) ∈ get_local_files w ↔
  ∃ rel, p = local_site_path ++ rel ∧ is_file_in rel info (local_site w).
Proof.
  intros Hwf.
  assert ((p, info) ∈ get_local_files w →
          ∃ rel, p = local_site_path ++ rel ∧ is_file_in rel info (local_site w))
    as Hfwd.
  { rewrite get_local_files_flat.
    intros [?%elem_of_nil|Hin]%elem_of_dict_of; [done|].
    by apply elem_of_walk_files in Hin. }
  split; [done|]. intros (rel & -> & Hrel).
  assert (local_site_path ++ rel ∈ keys (get_local_files w)) as Hkey.
  { apply elem_of_keys_get_local_files_tree. by exists rel, info. }
  apply list_elem_of_fmap in Hkey as ([p' info'] & Hp & Hin). simpl in Hp. subst p'.
  assert (info' = info) as ->; [|done].
  clear Hfwd.
  assert (∃ rel', local_site_path ++ rel = local_site_path ++ rel' ∧
                  is_file_in rel' info' (local_site w)) as (rel' & Heq & Hrel').
  { revert Hin. rewrite get_local_files_flat.
    intros [?%elem_of_nil|Hin]%elem_of_dict_of; [done|].
    by apply elem_of_walk_files in Hin. }
  apply app_inv_head in Heq as <-. by eapply is_file_in_functional.
Qed.

(** ** Failures *)


(** ** What a run uploads *)

Lemma stored_app l k : stored (l ++ k) = stored l ++ stored k.
Proof. apply omap_app. Qed.

Lemma stored_none l :
  Forall (λ ev, ∀ p f r, ev ≠ Called (Stor p f) r) l → stored l = [].
Proof.
  intros Hl. apply omap_none. eapply Forall_impl; [exact Hl|].
  intros [[] ?|?] Hev; try done. by destruct (Hev remote local_file r).
Qed.

Lemma stored_calm l : Forall calm l → stored l = [].
Proof.
  intros Hl. apply stored_none. eapply Forall_impl; [exact Hl|].
  by intros ev Hev p f r ->.
Qed.

Lemma stored_bind_calm {A B} (m : M A) (f : A → M B) h cs :
  Forall calm (m h).2 →
  (∀ a, (m h).1 = Ok a →
        Printed MsgChecking ∈ (f a (h ++ (m h).2)).2 →
        stored (f a (h ++ (m h).2)).2 = cs) →
  Printed MsgChecking ∈ ((m ≫= f) h).2 → stored ((m ≫= f) h).2 = cs.
Proof.
  intros Hm Hf. rewrite run_bind. destruct (m h) as [[a|e] evs1]; simpl in *.
  - specialize (Hf a eq_refl). destruct (f a (h ++ evs1)) as [r evs2]. simpl in *.
    intros [Hin|Hin]%elem_of_app.
    + rewrite Forall_forall in Hm. by apply Hm in Hin.
    + rewrite stored_app, (stored_calm evs1) by done. by apply Hf.
  - intros Hin. rewrite Forall_forall in Hm. by apply Hm in Hin.
Qed.

Lemma oblivious_changed_files w force remote_files local_files :
  oblivious (changed_files w force remote_files local_files).
Proof.
  apply oblivious_bind; [apply oblivious_print|]. intros _.
  apply oblivious_bind; [apply oblivious_lift|]. intros cs.
  destruct force; [|apply oblivious_ret].
  apply oblivious_bind; [apply oblivious_print|]. intros _. apply oblivious_ret.
Qed.

Lemma emits_calm_changed_files w force remote_files local_files :
  emits calm (changed_files w force remote_files local_files).
Proof.
  apply emits_bind; [by apply emits_print|]. intros _.
  apply emits_bind; [apply emits_lift|]. intros cs.
  destruct force; [|apply emits_ret].
  apply emits_bind; [by apply emits_print|]. intros _. apply emits_ret.
Qed.

Lemma emits_calm_mirror_directories w ftp_path :
  emits calm (mirror_directories w ftp_path).
Proof.
  intros h. destruct (mirror_directories w ftp_path h) as [r evs] eqn:Hrun.
  apply mirror_directories_run in Hrun as [Hev _].
  eapply Forall_impl; [exact Hev|].
  intros ev [->|[(p & facts & r' & ->)|(d & r' & ->)]]; done.
Qed.

Lemma emits_calm_get_remote_files w root : emits calm (get_remote_files w root).
Proof.
  eapply emits_weaken; [|apply emits_get_remote_files].
  by intros ev (p & facts & r & ->).
Qed.

Lemma emits_no_stor_delete_engine w remote_files local_files site ftp_path :
  emits (λ ev, ∀ p f r, ev ≠ Called (Stor p f) r)
    (delete_remote_files_not_in_local w remote_files local_files site ftp_path).
Proof.
  apply emits_bind; [apply emits_lift|]. intros s.
  case_decide; [by apply emits_print|].
  apply emits_bind; [by apply emits_print|]. intros _.
  apply emits_for_each. intros rel.
  apply emits_try_except.
  - apply emits_bind; [by apply emits_ftp|]. intros _. by apply emits_print.
  - intros []; by apply emits_print.
Qed.

Lemma emits_no_stor_tail w remote_files local_files site ftp_path :
  emits (λ ev, ∀ p f r, ev ≠ Called (Stor p f) r)
    (print MsgChecking;;
     delete_remote_files_not_in_local w remote_files local_files site ftp_path;;
     ftp w Quit).
Proof.
  apply emits_bind; [by apply emits_print|]. intros _.
  apply emits_bind; [apply emits_no_stor_delete_engine|]. intros _.
  by apply emits_ftp.
Qed.

(** X13. A run that reaches the deletion phase has uploaded the change set,
    file by file in its order: the store calls of the whole log are for
    exactly the files the change detection selected on the first remote
    listing. *)
Theorem run_uploads_change_set w force h :
  Printed MsgChecking ∈ (main w force h).2 →
  stored (main w force h).2 = expected_uploads w force.
Proof.
  destruct (main_cases w force h)
    as [[key ->]|(host & user & pw & fp & _ & ->)]; simpl.
  { by intros ?%elem_of_nil. }
  assert (Forall calm (closing (session w force host user pw fp h).1)) as Hclosing.
  { destruct (session w force host user pw fp h).1; by repeat constructor. }
  intros [Hin|Hin]%elem_of_app;
    [|rewrite Forall_forall in Hclosing; by apply Hclosing in Hin].
  rewrite stored_app, (stored_calm (closing _)), app_nil_r by done.
  revert Hin. unfold session.
  apply stored_bind_calm; [by apply emits_print|]. intros _ _.
  apply stored_bind_calm; [by apply emits_ftp|]. intros _ _.
  apply stored_bind_calm; [by apply emits_ftp|]. intros _ _.
  apply stored_bind_calm; [by apply emits_ftp|]. intros _ _.
  apply stored_bind_calm; [by apply emits_ftp|]. intros _ _.
  apply stored_bind_calm; [by apply emits_print|]. intros _ _.
  apply stored_bind_calm; [apply emits_calm_get_remote_files|].
  intros remote_files Hrf.
  rewrite (oblivious_get_remote_files w [] _ []) in Hrf.
  apply stored_bind_calm; [by apply emits_print|]. intros _ _.
  apply stored_bind_calm; [apply emits_calm_changed_files|].
  intros changed Hchanged.
  rewrite (oblivious_changed_files w force remote_files _ _ []) in Hchanged.
  assert (expected_uploads w force = changed) as ->.
  { unfold expected_uploads. by rewrite Hrf, Hchanged. }
  apply stored_bind_calm; [apply emits_calm_mirror_directories|]. intros _ _.
  match goal with |- _ ∈ (_ ?h').2 → _ => generalize h' end.
  intros h'. rewrite run_bind.
  pose proof (emits_upload_files w fp changed h') as Hup.
  destruct (upload_files w fp changed h') as [[[]|e] evsU] eqn:HrunU; simpl in *.
  - apply upload_files_run in HrunU as [_ Hstored].
    match goal with |- context [let '(_, _) := ?t in _] =>
      destruct t as [r evsR] eqn:HrunR end.
    intros _. simpl.
    assert (Forall (λ ev, ∀ p f r, ev ≠ Called (Stor p f) r) evsR) as Hall.
    { change evsR with (r, evsR).2. rewrite <-HrunR.
      apply emits_no_stor_tail. }
    rewrite stored_app, Hstored, (stored_none evsR) by done.
    by rewrite app_nil_r.
  - intros Hin. rewrite Forall_forall in Hup.
    apply Hup in Hin as [[f [=]]|(p & f & r & [=])].
Qed.

(** ** What a run creates and writes *)

Lemma Forall_bind_run {A B} (Q : event → Prop) (m : M A) (f : A → M B) h :
  Forall Q (m h).2 →
  (∀ a, (m h).1 = Ok a → Forall Q (f a (h ++ (m h).2)).2) →
  Forall Q ((m ≫= f) h).2.
Proof.
  intros Hm Hf. rewrite run_bind. destruct (m h) as [[a|e] evs1]; simpl in *; [|done].
  specialize (Hf a eq_refl). destruct (f a (h ++ evs1)) as [r evs2].
  by apply Forall_app.
Qed.

Lemma local_target_plain w (Q : event → Prop) l :
  (∀ ev, Q ev → (∀ d r, ev ≠ Called (Mkd d) r) ∧
                 (∀ p f r, ev ≠ Called (Stor p f) r)) →
  Forall Q l → Forall (local_target w) l.
Proof.
  intros HQ Hl. eapply Forall_impl; [exact Hl|].
  intros [[] r|m] [Hmkd Hstor]%HQ; try done.
  - by destruct (Hmkd p r).
  - by destruct (Hstor remote local_file r).
Qed.

Lemma mirror_directories_local w ftp_path h :
  Forall (local_target w) (mirror_directories w ftp_path h).2.
Proof.
  destruct (mirror_directories w ftp_path h) as [r evs] eqn:Hrun. simpl.
  destruct (get_local_dirs_ok w) as (lds & Hlds & Hmem & _).
  apply mirror_directories_run in Hrun as [Hev (lds' & Hlds' & Hmade)].
  assert (lds' = lds) as -> by congruence.
  apply Forall_forall. intros ev Hin.
  rewrite Forall_forall in Hev.
  destruct (Hev ev Hin) as [->|[(p & facts & r' & ->)|(d & r' & ->)]]; [done..|].
  simpl. apply Hmem.
  assert (d ∈ made_dirs evs) as Hd.
  { apply list_elem_of_omap. by exists (Called (Mkd d) r'). }
  destruct Hmade as [[_ Hnil]|(rds & _ & Hpre & _)].
  - rewrite Hnil in Hd. by apply elem_of_nil in Hd.
  - destruct Hpre as [k Hk]. 
    assert (d ∈ filter (λ d, d ∉ rds) lds) as Hf.
    { rewrite Hk. apply elem_of_app. by left. }
    by apply list_elem_of_filter in Hf as [_ ?].
Qed.

Lemma upload_files_local w ftp_path changed h :
  environ w !! "FTP_PATH" = Some ftp_path →
  (∀ f, f ∈ changed → f ∈ keys (get_local_files w)) →
  Forall (local_target w) (upload_files w ftp_path changed h).2.
Proof.
  intros Henv. unfold upload_files. revert h.
  induction changed as [|file files IH]; intros h Hkeys; [constructor|].
  cbn [for_each].
  destruct (proj1 (elem_of_keys_get_local_files_tree w file)
              (Hkeys file (list_elem_of_here _ _))) as (rel & info & -> & Hrel).
  destruct (upload_one_run w ftp_path rel h) as [x Hone].
  apply Forall_bind_run.
  - rewrite Hone. repeat constructor. by exists ftp_path, rel, info.
  - intros _ _. apply IH. intros f Hf. apply Hkeys. by right.
Qed.

(** X14. Whatever happens in a run, a make-directory call is for a directory
    of the local tree, and a store call sends a file of the local tree
    to the remote root joined with its path relative to [output]. *)
Theorem run_writes_only_local_names w force h :
  Forall (local_target w) (main w force h).2.
Proof.
  destruct (main_cases w force h)
    as [[key ->]|(host & user & pw & fp & Hconf & ->)]; simpl; [constructor|].
  apply Forall_app. split;
    [|destruct (session w force host user pw fp h).1; by repeat constructor].
  unfold session.
  apply Forall_bind_run; [by repeat constructor|]. intros _ _.
  apply Forall_bind_run; [unfold ftp; destruct (reply w _ _); by repeat constructor|].
  intros _ _.
  apply Forall_bind_run; [unfold ftp; destruct (reply w _ _); by repeat constructor|].
  intros _ _.
  apply Forall_bind_run; [unfold ftp; destruct (reply w _ _); by repeat constructor|].
  intros _ _.
  apply Forall_bind_run; [unfold ftp; destruct (reply w _ _); by repeat constructor|].
  intros _ _.
  apply Forall_bind_run; [by repeat constructor|]. intros _ _.
  apply Forall_bind_run.
  { eapply (local_target_plain w is_listing); [|apply emits_get_remote_files].
    by intros ev (p & facts & r & ->). }
  intros remote_files _.
  apply Forall_bind_run; [by repeat constructor|]. intros _ _.
  apply Forall_bind_run.
  { eapply (local_target_plain w (λ ev, ∃ m, ev = Printed m)).
    - by intros ev [m ->].
    - apply emits_bind; [apply emits_print; by eexists|]. intros _.
      apply emits_bind; [apply emits_lift|]. intros cs.
      destruct force; [|apply emits_ret].
      apply emits_bind; [apply emits_print; by eexists|]. intros _. apply emits_ret. }
  intros changed Hchanged%changed_files_sublist.
  apply Forall_bind_run; [apply mirror_directories_local|]. intros _ _.
  apply Forall_bind_run.
  { apply upload_files_local; [apply Hconf|].
    intros f Hf. by eapply elem_of_sublist. }
  intros _ _.
  apply Forall_bind_run; [by repeat constructor|]. intros _ _.
  apply Forall_bind_run.
  { eapply (local_target_plain w
              (λ ev, match ev with
                     | Called (Dele _) _ | Printed _ => True
                     | _ => False
                     end)).
    - intros [[] ?|?]; done.
    - apply emits_bind; [apply emits_lift|]. intros s.
      case_decide; [by apply emits_print|].
      apply emits_bind; [by apply emits_print|]. intros _.
      apply emits_for_each. intros rel. apply emits_try_except.
      + apply emits_bind; [by apply emits_ftp|]. intros _. by apply emits_print.
      + intros []; by apply emits_print. }
  intros _ _. unfold ftp. destruct (reply w _ _); by repeat constructor.
Qed.

(** ** The order of the calls *)

Lemma in_order_app l1 l2 :
  in_order l1 → in_order l2 →
  (∀ c r c' r', Called c r ∈ l1 → Called c' r' ∈ l2 → (rank c ≤ rank c')%nat) →
  in_order (l1 ++ l2).
Proof.
  intros H1 H2 Hcross pre c r post c' r' Heq Hin.
  apply app_eq_inv in Heq as [(k & -> & Hk)|(k & -> & ->)].
  - destruct k as [|x k]; simpl in Hk.
    + subst l2. by eapply (H2 []).
    + injection Hk as <- ->. apply elem_of_app in Hin as [Hin|Hin].
      * by eapply H1.
      * eapply Hcross; [|exact Hin]. apply elem_of_app. right. by left.
  - by eapply H2.
Qed.

Lemma banded_app lo k hi l1 l2 :
  (lo ≤ k ≤ hi)%nat → banded lo k l1 → banded k hi l2 → banded lo hi (l1 ++ l2).
Proof.
  intros Hk [Ho1 Hw1] [Ho2 Hw2]. split.
  - apply in_order_app; [done..|]. intros c r c' r' Hc Hc'.
    apply Hw1 in Hc. apply Hw2 in Hc'. lia.
  - intros c r [Hc%Hw1|Hc%Hw2]%elem_of_app; lia.
Qed.

Lemma banded_const k evs :
  Forall (λ ev, ∀ c r, ev = Called c r → rank c = k) evs → banded k k evs.
Proof.
  rewrite Forall_forall. intros Hevs. split.
  - intros pre c r post c' r' -> Hin.
    assert (rank c = k) as ->.
    { apply (Hevs (Called c r)) with r; [|done]. apply elem_of_app. right. by left. }
    assert (rank c' = k) as ->; [|done].
    apply (Hevs (Called c' r')) with r'; [|done]. apply elem_of_app. right. by right.
  - intros c r Hin. by rewrite (Hevs _ Hin c r).
Qed.

Lemma banded_bind {A B} lo k hi (m : M A) (f : A → M B) h :
  (lo ≤ k ≤ hi)%nat →
  banded lo k (m h).2 →
  (∀ a, banded k hi (f a (h ++ (m h).2)).2) →
  banded lo hi ((m ≫= f) h).2.
Proof.
  intros Hk Hm Hf. rewrite run_bind. destruct (m h) as [[a|e] evs1]; simpl in *.
  - specialize (Hf a). destruct (f a (h ++ evs1)) as [r evs2].
    by eapply banded_app.
  - destruct Hm as [Ho Hw]. split; [done|]. intros c r Hin%Hw. lia.
Qed.

Lemma banded_step {A B} k lo hi (m : M A) (f : A → M B) h :
  (lo ≤ k ≤ hi)%nat →
  emits (λ ev, ∀ c r, ev = Called c r → rank c = k) m →
  (∀ a h', banded k hi (f a h').2) →
  banded lo hi ((m ≫= f) h).2.
Proof.
  intros Hk Hm Hf. apply (banded_bind lo k hi); [done| |by intros].
  destruct (banded_const k (m h).2 (Hm h)) as [Ho Hw]. split; [done|].
  intros c r Hin%Hw. lia.
Qed.

Lemma banded_last lo k hi {A} (m : M A) h :
  (lo ≤ k ≤ hi)%nat →
  emits (λ ev, ∀ c r, ev = Called c r → rank c = k) m →
  banded lo hi (m h).2.
Proof.
  intros Hk Hm. destruct (banded_const k (m h).2 (Hm h)) as [Ho Hw].
  split; [done|]. intros c r Hin%Hw. lia.
Qed.

Lemma banded_mirror_directories w ftp_path h :
  banded 4 5 (mirror_directories w ftp_path h).2.
Proof.
  unfold mirror_directories.
  apply (banded_step 4); [lia|by apply emits_print|]. intros _ h1.
  apply (banded_step 4); [lia|apply emits_lift|]. intros lds h2.
  apply (banded_step 4); [lia| |].
  { eapply emits_weaken; [|apply emits_get_remote_dirs].
    by intros ev (p & facts & r & ->) c r' [= <- _]. }
  intros ds h3.
  apply (banded_step 5); [lia|apply emits_lift|]. intros rds h4.
  apply (banded_last 5 5); [lia|].
  apply emits_for_each. intros d.
  case_decide; [apply emits_ret|]. apply emits_ftp. by intros r c r' [= <- _].
Qed.

Lemma emits_prints_changed_files w force remote_files local_files :
  emits (λ ev, ∃ m, ev = Printed m)
    (changed_files w force remote_files local_files).
Proof.
  apply emits_bind; [apply emits_print; by eexists|]. intros _.
  apply emits_bind; [apply emits_lift|]. intros cs.
  destruct force; [|apply emits_ret].
  apply emits_bind; [apply emits_print; by eexists|]. intros _. apply emits_ret.
Qed.

Lemma emits_delete_engine w remote_files local_files site ftp_path :
  emits (λ ev, match ev with
               | Called (Dele _) _ | Printed _ => True
               | _ => False
               end)
    (delete_remote_files_not_in_local w remote_files local_files site ftp_path).
Proof.
  apply emits_bind; [apply emits_lift|]. intros s.
  case_decide; [by apply emits_print|].
  apply emits_bind; [by apply emits_print|]. intros _.
  apply emits_for_each. intros rel. apply emits_try_except.
  - apply emits_bind; [by apply emits_ftp|]. intros _. by apply emits_print.
  - intros []; by apply emits_print.
Qed.

(** X15. The calls of a run follow the script: connect, login, prot_p, cwd,
    then listings, then make-directory calls, then stores, then deletes,
    then quit.  No call is followed by a call of an earlier stage, so no
    file is sent before the directories are made and no file is deleted
    before the uploads are over. *)
Theorem calls_follow_the_script w force h : in_order (main w force h).2.
Proof.
  destruct (main_cases w force h)
    as [[key ->]|(host & user & pw & fp & _ & ->)]; simpl.
  { by intros [|??] c r post c' r' [=]. }
  apply in_order_app.
  2:{ destruct (session w force host user pw fp h).1;
        by intros [|? [|? [|??]]] c r post c' r' [=]. }
  2:{ intros c r c' r' _ Hin.
      destruct (session w force host user pw fp h).1;
        repeat (apply elem_of_cons in Hin as [[=]|Hin]); by apply elem_of_nil in Hin. }
  assert (banded 0 8 (session w force host user pw fp h).2) as [Hord _];
    [|exact Hord].
  unfold session.
  apply (banded_step 0); [lia|by apply emits_print|]. intros _ h1.
  apply (banded_step 0); [lia|apply emits_ftp; by intros r c r' [= <- _]|].
  intros _ h2.
  apply (banded_step 1); [lia|apply emits_ftp; by intros r c r' [= <- _]|].
  intros _ h3.
  apply (banded_step 2); [lia|apply emits_ftp; by intros r c r' [= <- _]|].
  intros _ h4.
  apply (banded_step 3); [lia|apply emits_ftp; by intros r c r' [= <- _]|].
  intros _ h5.
  apply (banded_step 4); [lia|by apply emits_print|]. intros _ h6.
  apply (banded_step 4); [lia| |].
  { eapply emits_weaken; [|apply emits_get_remote_files].
    by intros ev (p & facts & r & ->) c r' [= <- _]. }
  intros remote_files h7.
  apply (banded_step 4); [lia|by apply emits_print|]. intros _ h8.
  apply (banded_step 4); [lia| |].
  { eapply emits_weaken; [|apply emits_prints_changed_files].
    by intros ev [m ->] c r. }
  intros changed h9.
  apply (banded_bind 4 5 8); [lia|apply banded_mirror_directories|]. intros _.
  apply (banded_step 6); [lia| |].
  { eapply emits_weaken; [|apply emits_upload_files].
    by intros ev [[f ->]|(p & f & r & ->)] c r' [= <- _]. }
  intros _ h10.
  apply (banded_step 7); [lia|by apply emits_print|]. intros _ h11.
  apply (banded_step 7); [lia| |].
  { eapply emits_weaken; [|apply emits_delete_engine].
    by intros [[] ?|?] Hev c r' [= <- _]. }
  intros _ h12.
  apply (banded_last 7 8 8); [lia|]. apply emits_ftp. by intros r c r' [= <- _].
Qed.

(** ** The setup of the session *)

Local Ltac short_log :=
  left; simpl;
  repeat (apply Forall_cons_2; [intros ?c ?r [=]; subst; simpl; lia|]);
  apply Forall_nil_2.

Lemma ftp_cases w c h :
  ftp w c h = (Ok (), [Called c None]) ∨
  ∃ e, ftp w c h = (Raise e, [Called c (Some e)]).
Proof. unfold ftp. destruct (reply w h c) as [e|]; [right; by exists e|by left]. Qed.

Lemma session_setup w force host user pw ftp_path h :
  Forall (λ ev, ∀ c r, ev = Called c r → (rank c < 4)%nat)
    (session w force host user pw ftp_path h).2 ∨
  ∃ rest,
    (session w force host user pw ftp_path h).2 =
    Printed MsgConnecting :: Called (Connect host 21) None ::
    Called (Login user pw) None :: Called ProtP None ::
    Called (Cwd ftp_path) None :: rest.
Proof.
  unfold session.
  rewrite (bind_ok _ _ _ () [Printed MsgConnecting]) by done.
  cbn [fst snd].
  generalize (h ++ [Printed MsgConnecting]) as h1. intros h1.
  destruct (ftp_cases w (Connect host 21) h1) as [H1|[e H1]].
  2:{ rewrite (bind_raise _ _ _ _ _ H1). short_log. }
  rewrite (bind_ok _ _ _ _ _ H1). cbn [fst snd].
  generalize (h1 ++ [Called (Connect host 21) None]) as h2. intros h2.
  destruct (ftp_cases w (Login user pw) h2) as [H2|[e H2]].
  2:{ rewrite (bind_raise _ _ _ _ _ H2). short_log. }
  rewrite (bind_ok _ _ _ _ _ H2). cbn [fst snd].
  generalize (h2 ++ [Called (Login user pw) None]) as h3. intros h3.
  destruct (ftp_cases w ProtP h3) as [H3|[e H3]].
  2:{ rewrite (bind_raise _ _ _ _ _ H3). short_log. }
  rewrite (bind_ok _ _ _ _ _ H3). cbn [fst snd].
  generalize (h3 ++ [Called ProtP None]) as h4. intros h4.
  destruct (ftp_cases w (Cwd ftp_path) h4) as [H4|[e H4]].
  2:{ rewrite (bind_raise _ _ _ _ _ H4). short_log. }
  rewrite (bind_ok _ _ _ _ _ H4). cbn [fst snd].
  right. by eexists.
Qed.

(** X6. Before any listing, make-directory, store or delete call of a
    run, the client has connected to [FTP_HOST] on port 21, logged in
    with [FTP_USERNAME] and [FTP_PASSWORD], switched the data channel to
    TLS with [prot_p] and changed to [FTP_PATH], in this order and each
    with success. *)
Theorem setup_precedes_data w force h pre c r post :
  (main w force h).2 = pre ++ Called c r :: post →
  (4 ≤ rank c ≤ 7)%nat →
  ∃ host user pw ftp_path rest,
    configured w host user pw ftp_path ∧
    pre = Printed MsgConnecting :: Called (Connect host 21) None ::
          Called (Login user pw) None :: Called ProtP None ::
          Called (Cwd ftp_path) None :: rest.
Proof.
  destruct (main_cases w force h)
    as [[key ->]|(host & user & pw & fp & Hconf & ->)]; simpl.
  { by destruct pre. }
  intros Heq Hrank. exists host, user, pw, fp.
  assert (Forall (λ ev, ∀ c r, ev = Called c r → (rank c < 4)%nat)
            (closing (session w force host user pw fp h).1)) as Hclosing.
  { destruct (session w force host user pw fp h).1; by repeat constructor. }
  destruct (session_setup w force host user pw fp h) as [Hshort|[rest Hevs]].
  - assert (Forall (λ ev, ∀ c r, ev = Called c r → (rank c < 4)%nat)
              (pre ++ Called c r :: post)) as Hall.
    { rewrite <-Heq. by apply Forall_app. }
    apply Forall_app in Hall as [_ Hall]. apply Forall_cons in Hall as [Hc _].
    specialize (Hc c r eq_refl). lia.
  - rewrite Hevs in Heq. simpl in Heq.
    do 5 (destruct pre as [|? pre];
          [simplify_eq/=; lia|simpl in Heq; injection Heq as <- Heq]).
    by exists pre.
Qed.

(** ** A remote tree without end *)

(** X1. When every listing shows a directory (after entries that are not
    directories), the search for directories descends until the stack is
    used up: it raises [RecursionError] after as many listing calls as
    the stack allows, and returns no directory. *)
Theorem endless_tree_raises w p h :
  (∀ d, ∃ pre name facts post,
     listing w ["type"] d = Ok (pre ++ (name, facts) :: post) ∧
     facts !! "type" = Some "dir" ∧
     Forall (λ e : entry, ∃ ty, e.2 !! "type" = Some ty ∧ ty ≠ "dir") pre) →
  ∃ evs, get_remote_dirs w p h = (Raise RecursionError, evs) ∧
         length evs = recursion_limit w ∧
         Forall (λ ev, ∃ d, ev = Called (Mlsd d ["type"]) None) evs.
Proof.
  intros Hdirs. unfold get_remote_dirs.
  generalize (recursion_limit w) as depth. generalize (@nil path) as acc.
  intros acc depth. revert acc p h.
  induction depth as [|depth IH]; intros acc p h; [by exists []|].
  destruct (Hdirs p) as (pre & name & facts & post & Hlist & Hdir & Hpre).
  cbn [recursive_get_dirs]. rewrite run_bind. unfold mlsd at 1. rewrite Hlist.
  generalize (h ++ [Called (Mlsd p ["type"]) None]) as h'.
  generalize (acc ++ [p]) as acc'. clear Hlist.
  assert (∀ acc' h', ∃ evs,
    for_fold (pre ++ (name, facts) :: post)
      (λ remote_dirs file_info,
         ty ← lift (fact file_info "type");
         if decide (ty = "dir")
         then recursive_get_dirs w depth remote_dirs (joinpath p file_info.1)
         else mret remote_dirs) acc' h' = (Raise RecursionError, evs) ∧
    length evs = depth ∧
    Forall (λ ev, ∃ d, ev = Called (Mlsd d ["type"]) None) evs) as Hloop.
  { set (body := λ (remote_dirs : list path) (file_info : entry),
                   ty ← lift (fact file_info "type");
                   if decide (ty = "dir")
                   then recursive_get_dirs w depth remote_dirs (joinpath p file_info.1)
                   else mret remote_dirs).
    induction Hpre as [|[n fs] pre (ty & Hty & Hne) _ IHpre]; intros acc' h'.
    - assert (body acc' (name, facts) h' =
              recursive_get_dirs w depth acc' (joinpath p name) h') as Hbody.
      { unfold body. rewrite (fact_some _ _ _ _ Hdir), bind_lift_ok.
        by rewrite decide_True. }
      cbn [app for_fold]. rewrite run_bind, Hbody.
      destruct (IH acc' (joinpath p name) h') as (evs & -> & Hlen & Hall).
      by exists evs.
    - assert (body acc' (n, fs) h' = (Ok acc', [])) as Hbody.
      { unfold body. rewrite (fact_some _ _ _ _ Hty), bind_lift_ok.
        by rewrite decide_False. }
      cbn [app for_fold]. rewrite run_bind, Hbody.
      destruct (IHpre acc' (h' ++ [])) as (evs & -> & Hlen & Hall).
      by exists evs. }
  intros acc' h'. destruct (Hloop acc' h') as (evs & -> & Hlen & Hall).
  exists (Called (Mlsd p ["type"]) None :: evs). split; [done|]. split.
  - simpl. by rewrite Hlen.
  - apply Forall_cons_2; [by eexists|done].
Qed.

(** ** The order of the make-directory calls *)

Lemma bind_split {A B} (f : A → list B) l l1 p l2 :
  l ≫= f = l1 ++ p :: l2 →
  ∃ cs1 c cs2 m1 m2,
    l = cs1 ++ c :: cs2 ∧ f c = m1 ++ p :: m2 ∧ l1 = (cs1 ≫= f) ++ m1.
Proof.
  revert l1. induction l as [|c cs IH]; intros l1 Heq.
  { by destruct l1. }
  rewrite bind_cons in Heq.
  apply app_eq_app in Heq as [l [[Hc Hrest]|[-> Hrest]]].
  - destruct l as [|b l].
    + simpl in Hrest. rewrite app_nil_r in Hc.
      destruct (IH [] (eq_sym Hrest)) as (cs1 & c' & cs2 & m1 & m2 & -> & Hc' & Hnil).
      exists (c :: cs1), c', cs2, m1, m2. split_and!; [done..|].
      rewrite bind_cons, <-app_assoc, <-Hnil, app_nil_r. done.
    + injection Hrest as <- ->. by exists [], c, cs, l1, l.
  - destruct (IH l Hrest) as (cs1 & c' & cs2 & m1 & m2 & -> & Hc' & ->).
    exists (c :: cs1), c', cs2, m1, m2. split_and!; [done..|].
    by rewrite bind_cons, app_assoc.
Qed.

Lemma walk_dirs_parents_first n : ∀ root l1 p l2,
  walk_dirs root n = l1 ++ p :: l2 →
  ∃ q x, p = q ++ [x] ∧ (q = root ∨ q ∈ l1).
Proof.
  induction n as [name mtime size|name children IH] using node_ind';
    intros root l1 p l2 Heq.
  { by destruct l1. }
  rewrite Forall_forall in IH. rewrite walk_dirs_dir in Heq.
  apply app_eq_app in Heq as [l [[Hnames Hrest]|[-> Hrest]]].
  - destruct l as [|b l].
    + simpl in Hrest. rewrite app_nil_r in Hnames. symmetry in Hrest.
      apply (bind_split _ _ []) in Hrest
        as (cs1 & c & cs2 & m1 & m2 & -> & Hc & Hnil).
      symmetry in Hnil. apply app_eq_nil in Hnil as [_ ->].
      assert (c ∈ cs1 ++ c :: cs2) as Hcin by (apply elem_of_app; right; by left).
      destruct (IH c Hcin _ _ _ _ Hc) as (q & x & -> & [->|?%elem_of_nil]); [|done].
      exists (joinpath root (node_name c)), x. split; [done|]. right.
      rewrite <-Hnames. apply list_elem_of_fmap. exists (node_name c). split; [done|].
      destruct c as [|d cs]; [done|]. apply elem_of_dirnames. exists cs.
      apply elem_of_app. right. by left.
    + injection Hrest as <- ->.
      assert (p ∈ joinpath root <$> dirnames children) as Hp.
      { rewrite Hnames. apply elem_of_app. right. by left. }
      apply list_elem_of_fmap in Hp as (d & -> & _). exists root, d. by split; [|left].
  - apply bind_split in Hrest as (cs1 & c & cs2 & m1 & m2 & -> & Hc & ->).
    assert (c ∈ cs1 ++ c :: cs2) as Hcin by (apply elem_of_app; right; by left).
    destruct (IH c Hcin _ _ _ _ Hc) as (q & x & -> & [->|Hq]).
    + exists (joinpath root (node_name c)), x. split; [done|]. right.
      apply elem_of_app. left. apply list_elem_of_fmap.
      exists (node_name c). split; [done|].
      destruct c as [|d cs]; [by destruct m1|]. apply elem_of_dirnames. exists cs.
      apply elem_of_app. right. by left.
    + exists q, x. split; [done|]. right. rewrite !elem_of_app. by right; right.
Qed.

Lemma get_local_dirs_parents_first w ds l1 q x l2 :
  get_local_dirs w = Ok ds → ds = l1 ++ (q ++ [x]) :: l2 → q ≠ [] → q ∈ l1.
Proof.
  unfold get_local_dirs, walk_output.
  fold (walk_dirs local_site_path (dir_node "output" (local_site w))).
  set (l := walk_dirs local_site_path (dir_node "output" (local_site w))).
  assert (∀ p, p ∈ l → ∃ rel, p = ["output"] ++ rel) as Hl.
  { intros p (rel & -> & _)%elem_of_walk_dirs. by exists rel. }
  assert (list_of (rel_to ["output"]) l = Ok (drop 1 <$> l)) as ->.
  { apply list_of_ok. intros p (rel & ->)%Hl. unfold rel_to.
    by rewrite relative_to_app. }
  intros [= <-] Heq Hq.
  apply fmap_app_inv in Heq as (k1 & k2 & -> & Hk2 & Hsplit).
  symmetry in Hk2.
  apply fmap_cons_inv in Hk2 as (p & k3 & Hp & -> & ->).
  pose proof (walk_dirs_parents_first _ _ _ _ _ Hsplit) as (q' & x' & -> & Hq').
  destruct Hq' as [->|Hin].
  - simpl in Hp. destruct q as [|? [|? ?]]; by simplify_eq/=.
  - destruct (Hl q') as [rel ->].
    { rewrite Hsplit. apply elem_of_app. by left. }
    simpl in Hp. apply app_inj_tail in Hp as [-> _].
    apply list_elem_of_fmap. by exists ("output" :: rel).
Qed.

Lemma mkd_loop_order w (remote_dirs local_dirs : list path) h r evs pre d res post :
  for_each local_dirs
    (λ d, if decide (d ∈ remote_dirs) then mret () else ftp w (Mkd d)) h = (r, evs) →
  evs = pre ++ Called (Mkd d) res :: post →
  ∃ l1 l2, local_dirs = l1 ++ d :: l2 ∧
           ∀ q, q ∈ l1 → q ∈ remote_dirs ∨ Called (Mkd q) None ∈ pre.
Proof.
  revert h evs pre. induction local_dirs as [|a ds IH]; intros h evs pre Hrun Heq.
  { simpl in Hrun. apply ret_inv in Hrun as [_ ->]. by destruct pre. }
  simpl in Hrun.
  apply bind_inv in Hrun as [(e & Ha & ->)|([] & evs1 & evs2 & Ha & Hrest & ->)].
  - destruct (decide (a ∈ remote_dirs)) as [Hin|Hnin].
    { by apply ret_inv in Ha as [[=] _]. }
    apply ftp_inv in Ha as [-> _].
    destruct pre as [|? [|? ?]]; simplify_eq/=.
    exists [], ds. split; [done|]. by intros q ?%elem_of_nil.
  - destruct (decide (a ∈ remote_dirs)) as [Hin|Hnin].
    + apply ret_inv in Ha as [_ ->]. simpl in Heq.
      destruct (IH _ _ _ Hrest Heq) as (l1 & l2 & -> & Hl1).
      exists (a :: l1), l2. split; [done|].
      intros q [->|Hq]%elem_of_cons; [by left|by apply Hl1].
    + apply ftp_inv in Ha as [-> Hr].
      destruct (reply w h (Mkd a)) as [e|]; [done|]. simpl in Heq.
      destruct pre as [|ev pre]; simplify_eq/=.
      * exists [], ds. split; [done|]. by intros q ?%elem_of_nil.
      * destruct (IH _ _ _ Hrest eq_refl) as (l1 & l2 & -> & Hl1).
        exists (a :: l1), l2. split; [done|].
        intros q [->|Hq]%elem_of_cons; [right; by left|].
        destruct (Hl1 q Hq) as [?|?]; [by left|right; by right].
Qed.

(** X10. During the mirroring no directory is made before its parent is
    known to exist: when [mkd] is called for a directory below another
    local directory, that parent has before been listed on the server
    with success or been made with success. *)
Theorem directories_made_parents_first w ftp_path h pre q x res post :
  (mirror_directories w ftp_path h).2 = pre ++ Called (Mkd (q ++ [x])) res :: post →
  q ≠ [] →
  Called (Mkd q) None ∈ pre ∨
  Called (Mlsd (Path w ftp_path ++ q) ["type"]) None ∈ pre.
Proof.
  destruct (mirror_directories w ftp_path h) as [r evs] eqn:Hrun. simpl.
  intros -> Hq.
  destruct (get_local_dirs_ok w) as (lds & Hlds & _).
  unfold mirror_directories in Hrun. rewrite Hlds in Hrun.
  apply bind_inv in Hrun as [(e & [[=] _]%print_inv & _)
                            |([] & evs1 & evs2 & [_ ->]%print_inv & Hrun & Heq)].
  apply bind_inv in Hrun as [(e & [[=] _]%lift_inv & _)
                            |(lds' & evs3 & evs4 & [[= ->] ->]%lift_inv & Hrun & ->)].
  pose proof (emits_get_remote_dirs w (Path w ftp_path)
                ((h ++ [Printed MsgMirroring]) ++ [])) as Hem.
  assert (∀ l, Forall is_listing l → Forall (λ ev, ¬ is_mkd ev) l) as Hweak.
  { intros l Hl. eapply Forall_impl; [exact Hl|].
    by intros ev (p & facts & r' & ->) (d' & r'' & ?). }
  apply bind_inv in Hrun as [(e & Hdirs & ->)|(dirs & evs5 & evs6 & Hdirs & Hrun & ->)].
  { rewrite Hdirs in Hem. simpl in Hem, Heq.
    destruct pre as [|ev pre]; [done|]. injection Heq as -> Heq.
    assert (Forall (λ ev, ¬ is_mkd ev) (pre ++ Called (Mkd (q ++ [x])) res :: post))
      as Hall by (rewrite Heq; by apply Hweak).
    apply Forall_app in Hall as [_ Hall]. apply Forall_cons in Hall as [Hno _].
    destruct Hno. by eexists _, _. }
  rewrite Hdirs in Hem. simpl in Hem.
  apply get_remote_dirs_ok in Hdirs as [-> Hreach].
  assert (list_of (rel_to (Path w ftp_path)) dirs =
          Ok (drop (length (Path w ftp_path)) <$> dirs)) as Hrel.
  { apply list_of_ok. intros d [rel ->]%Hreach%(reachable_under w).
    unfold rel_to. rewrite relative_to_app. by rewrite drop_app_length. }
  rewrite Hrel in Hrun.
  apply bind_inv in Hrun as [(e & [[=] _]%lift_inv & _)
                            |(rds & evs7 & evs8 & [[= ->] ->]%lift_inv & Hrun & ->)].
  simpl in Heq.
  destruct pre as [|ev pre]; [done|]. injection Heq as -> Heq.
  destruct (locate_right is_mkd _ _ _ _ _ Heq) as (pre' & -> & Hloop);
    [by eexists _, _|by apply Hweak|].
  destruct (mkd_loop_order _ _ _ _ _ _ _ _ _ _ Hrun Hloop) as (l1 & l2 & -> & Hl1).
  pose proof (get_local_dirs_parents_first w _ _ _ _ _ Hlds eq_refl Hq) as Hin.
  destruct (Hl1 q Hin) as [(d & -> & Hd)%list_elem_of_fmap|Hmade].
  - right. right. apply elem_of_app. left.
    apply list_elem_of_fmap. exists d. split; [|done].
    destruct (reachable_under w _ _ (proj1 (Hreach d) Hd)) as [rel ->].
    by rewrite drop_app_length.
  - left. right. apply elem_of_app. by right.
Qed.

(** ** The settings *)

(** X18. The four settings are read in the order [FTP_HOST],
    [FTP_USERNAME], [FTP_PASSWORD], [FTP_PATH]: when one is missing and
    those before it are set, the run raises [KeyError] for it with an
    empty log, so it neither prints nor calls the server. *)
Theorem missing_setting_stops_the_run w force h pre key post :
  ["FTP_HOST"; "FTP_USERNAME"; "FTP_PASSWORD"; "FTP_PATH"] = pre ++ key :: post →
  Forall (λ k, is_Some (environ w !! k)) pre →
  environ w !! key = None →
  main w force h = (Raise (KeyError key), []).
Proof.
  intros Heq Hpre Hkey. unfold main, getenv.
  do 4 (destruct pre as [|k pre];
        [injection Heq as <- <-; by rewrite Hkey
        |injection Heq as <- Heq;
         apply Forall_cons in Hpre as [[? ->] Hpre]; cbn [or_raise];
         rewrite bind_lift_ok]).
  by destruct pre.
Qed.

(** * The further properties on the sample worlds *)

Local Ltac in_list :=
  repeat first [apply list_elem_of_here|apply list_elem_of_further].

Lemma sample_reachable root ds evs d :
  get_remote_dirs sample_world root [] = (Ok ds, evs) →
  reachable sample_world root d → d ∈ ds.
Proof. intros [_ Hds]%get_remote_dirs_ok. apply Hds. Defined.

Lemma sample_answers facts d :
  facts ∈ [["type"]; ["size"; "modify"; "type"]] →
  d ∈ [[]; ["css"]; ["tmp"]; ["/"; "site"]; ["/"; "site"; "css"]; ["/"; "site"; "tmp"]] →
  answers sample_world facts d.
Proof.
  intros Hfacts Hd.
  assert (∀ ty m s, is_Some (facts_of ty m s !! "type") ∧
            (facts_of ty m s !! "type" = Some "file" →
             Forall (λ k, is_Some (facts_of ty m s !! k)) facts)) as Hok.
  { intros ty m s. split; [by eexists|]. intros _.
    repeat (apply elem_of_cons in Hfacts as [->|Hfacts];
            [repeat constructor; by eexists|]).
    by apply elem_of_nil in Hfacts. }
  repeat (apply elem_of_cons in Hd as [->|Hd];
    [eexists; split; [reflexivity|];
     intros name fs Hin;
     repeat (apply elem_of_cons in Hin as [[= -> ->]|Hin]; [apply Hok|]);
     by apply elem_of_nil in Hin|]).
  by apply elem_of_nil in Hd.
Defined.


(** X1 on a server where every directory holds a directory [again]:
    five listings, then the error. *)
Lemma endless_tree_raises_sample :
  ∃ evs, get_remote_dirs endless_world [] [] = (Raise RecursionError, evs) ∧
         length evs = 5 ∧
         Forall (λ ev, ∃ d, ev = Called (Mlsd d ["type"]) None) evs.
Proof.
  apply (endless_tree_raises endless_world [] []).
  intros d.
  exists [("note.txt", facts_of "file" "20240101" "1")], "again",
         (facts_of "dir" "20240101" "0"), [].
  split; [reflexivity|]. split; [reflexivity|].
  constructor; [|constructor]. exists "file". by split.
Defined.

(** X3 on the sample. *)
Lemma get_remote_files_total_sample :
  ∃ files evs, get_remote_files sample_world [] [] = (Ok files, evs).
Proof.
  assert (∀ d, reachable sample_world [] d → d ∈ [[]; ["css"]; ["tmp"]]) as Hreach.
  { intros d. by apply (sample_reachable [] _ _ d eq_refl). }
  apply (get_remote_files_total sample_world [] []).
  - intros d Hd%Hreach.
    repeat (apply elem_of_cons in Hd as [->|Hd]; [simpl; lia|]).
    by apply elem_of_nil in Hd.
  - intros d Hd%Hreach. apply sample_answers; [by left|].
    repeat (apply elem_of_cons in Hd as [->|Hd]; [in_list|]).
    by apply elem_of_nil in Hd.
  - intros d Hd%Hreach. apply sample_answers; [right; by left|].
    repeat (apply elem_of_cons in Hd as [->|Hd]; [in_list|]).
    by apply elem_of_nil in Hd.
Defined.



(** X6 on the sample: the first listing comes after the four calls of
    the setup. *)
Lemma setup_precedes_data_sample :
  ∃ host user pw ftp_path rest,
    configured sample_world host user pw ftp_path ∧
    take 6 (main sample_world false []).2 =
      Printed MsgConnecting :: Called (Connect host 21) None ::
      Called (Login user pw) None :: Called ProtP None ::
      Called (Cwd ftp_path) None :: rest.
Proof.
  apply (setup_precedes_data sample_world false []
           (take 6 (main sample_world false []).2) (Mlsd [] ["type"]) None
           (drop 7 (main sample_world false []).2)).
  - reflexivity.
  - simpl. lia.
Defined.

(** X7 on the sample: [output/css/s.css] with its 7 bytes. *)
Lemma local_files_record_the_tree_sample :
  well_formed (local_site sample_world) ∧
  ((["output"; "css"; "s.css"], {| info_modify := 100; info_size := 7 |})
     ∈ get_local_files sample_world ↔
   ∃ rel, ["output"; "css"; "s.css"] = local_site_path ++ rel ∧
          is_file_in rel {| info_modify := 100; info_size := 7 |}
            (local_site sample_world)).
Proof.
  split; [exact sample_site_well_formed|].
  exact (local_files_record_the_tree sample_world _ _ sample_site_well_formed).
Defined.

(** X8 on the sample: [a.txt] and [c.txt], in this order. *)
Lemma change_set_in_walk_order_sample :
  NoDup (keys (get_local_files sample_world)) ∧
  [["output"; "a.txt"]; ["output"; "c.txt"]]
    `sublist_of` keys (get_local_files sample_world) ∧
  NoDup [["output"; "a.txt"]; ["output"; "c.txt"]].
Proof.
  assert (NoDup (keys (get_local_files sample_world))) as Hkeys.
  { by apply (bool_decide_unpack _). }
  split; [exact Hkeys|].
  exact (change_set_in_walk_order sample_world false sample_remote_files
           (get_local_files sample_world) [] _ _ Hkeys eq_refl).
Defined.

(** X10 on a local tree [docs/api]: [docs] is made before [docs/api]. *)
Lemma directories_made_parents_first_sample :
  (mirror_directories nested_site_world "/site" []).2 =
    [Printed MsgMirroring; Called (Mlsd ["/"; "site"] ["type"]) None;
     Called (Mlsd ["/"; "site"; "css"] ["type"]) None;
     Called (Mlsd ["/"; "site"; "tmp"] ["type"]) None;
     Called (Mkd ["docs"]) None] ++
    Called (Mkd (["docs"] ++ ["api"])) None :: [] ∧
  (Called (Mkd ["docs"]) None ∈
     [Printed MsgMirroring; Called (Mlsd ["/"; "site"] ["type"]) None;
      Called (Mlsd ["/"; "site"; "css"] ["type"]) None;
      Called (Mlsd ["/"; "site"; "tmp"] ["type"]) None;
      Called (Mkd ["docs"]) None] ∨
   Called (Mlsd (Path nested_site_world "/site" ++ ["docs"]) ["type"]) None ∈
     [Printed MsgMirroring; Called (Mlsd ["/"; "site"] ["type"]) None;
      Called (Mlsd ["/"; "site"; "css"] ["type"]) None;
      Called (Mlsd ["/"; "site"; "tmp"] ["type"]) None;
      Called (Mkd ["docs"]) None]).
Proof.
  split; [reflexivity|].
  apply (directories_made_parents_first nested_site_world "/site" [] _
           ["docs"] "api" None []); [reflexivity|done].
Defined.

(** X11 on the sample. *)
Lemma mirror_directories_total_sample :
  ∃ evs, mirror_directories sample_world "/site" [] = (Ok (), evs).
Proof.
  assert (∀ d, reachable sample_world ["/"; "site"] d →
               d ∈ [["/"; "site"]; ["/"; "site"; "css"]; ["/"; "site"; "tmp"]])
    as Hreach.
  { intros d. by apply (sample_reachable ["/"; "site"] _ _ d eq_refl). }
  apply (mirror_directories_total sample_world "/site" []).
  - intros d Hd%Hreach.
    repeat (apply elem_of_cons in Hd as [->|Hd]; [simpl; lia|]).
    by apply elem_of_nil in Hd.
  - intros d Hd%Hreach. apply sample_answers; [by left|].
    repeat (apply elem_of_cons in Hd as [->|Hd]; [in_list|]).
    by apply elem_of_nil in Hd.
  - done.
Defined.

(** X13 on the sample: [a.txt] and [c.txt] are stored. *)
Lemma run_uploads_change_set_sample :
  Printed MsgChecking ∈ (main sample_world false []).2 ∧
  stored (main sample_world false []).2 = expected_uploads sample_world false.
Proof.
  assert (Printed MsgChecking ∈ (main sample_world false []).2) as Hin.
  { apply list_elem_of_In. vm_compute. tauto. }
  split; [exact Hin|].
  exact (run_uploads_change_set sample_world false [] Hin).
Defined.



(** X18 with no setting at all: the run stops at [FTP_HOST]. *)
Lemma missing_setting_stops_the_run_sample :
  main unconfigured_world false [] = (Raise (KeyError "FTP_HOST"), []).
Proof.
  apply (missing_setting_stops_the_run unconfigured_world false [] []
           "FTP_HOST" ["FTP_USERNAME"; "FTP_PASSWORD"; "FTP_PATH"]).
  - reflexivity.
  - constructor.
  - reflexivity.
Defined.
